(** * waifu2x-go: the inference engine of [waifu2x/waifu2x.go]

    A shallow embedding of the engine that works on [mat64.Dense] planes
    ([pad], [calcConv], [correlate], [broadcastMat], [broadcastVec], [clip],
    [Exec], [SaveImage]) and the properties of its specification.

    Conventions.
    - A Go computation that may panic or leave the process is a value of
      [outcome]: [Ok v], [Panic] (index out of range, nil dereference,
      [mat64] shape panic, negative [make]) or [Exit code] ([os.Exit]).
    - [float64] is a type [F] with the operations the code uses, collected in
      the class [Scalar]; [binary64] is its instance on Rocq's primitive
      floats (IEEE 754 binary64, as Go computes), [exactQ] its instance on
      exact rationals.
    - Go [int] values here are slice lengths, indices and matrix dimensions;
      they are modelled in [Z] (a slice of [n] elements exists in memory, so
      no product or sum of them leaves the 64-bit range).
    - The goroutines of one output plane send their results on a buffered
      channel; the order in which the coordinator receives them is an
      arbitrary permutation of the task indices, given by a [Sched]. *)

From Stdlib Require Import String Ascii.
From Stdlib Require Import Floats Uint63.
From Stdlib Require Import QArith Qround.
From Stdlib Require Import ZArith List Lia Bool Permutation.
Import ListNotations.

Local Open Scope Z_scope.

(** ** Outcomes *)

Inductive outcome (A : Type) : Type :=
| Ok (a : A)
| Panic
| Exit (code : Z).

Arguments Ok {A} a.
Arguments Panic {A}.
Arguments Exit {A} code.

Definition bind {A B : Type} (m : outcome A) (k : A -> outcome B) : outcome B :=
  match m with
  | Ok a => k a
  | Panic => Panic
  | Exit code => Exit code
  end.

Notation "'do' x <- m ; k" := (bind m (fun x => k))
  (at level 10, x name, m at level 100, k at level 200).

Fixpoint mapM {A B : Type} (f : A -> outcome B) (l : list A) : outcome (list B) :=
  match l with
  | [] => Ok []
  | a :: l' => do b <- f a; do bs <- mapM f l'; Ok (b :: bs)
  end.

(** [for i := a; i < b; i++]: the values [i] takes. *)
Definition zrange (a b : Z) : list Z :=
  map (fun k => a + Z.of_nat k) (seq 0 (Z.to_nat (b - a))).

(** Two nested [for] loops whose body appends the cells it computes to a
    vector through a running index [idx]: the cells in the order written. *)
Definition for_cells {B : Type} (rs cs : list Z) (body : Z -> Z -> outcome (list B))
  : outcome (list B) :=
  do rws <- mapM (fun i => do ws <- mapM (body i) cs; Ok (concat ws)) rs;
  Ok (concat rws).

(** [s[i]] on a slice: a panic outside [0 <= i < len(s)]. *)
Definition index {A : Type} (s : list A) (i : Z) : outcome A :=
  if i <? 0 then Panic
  else match nth_error s (Z.to_nat i) with
       | Some v => Ok v
       | None => Panic
       end.

Definition len {A : Type} (s : list A) : Z := Z.of_nat (length s).

(** [newVec := make([]T, n)] followed by the writes [newVec[idx] = v; idx++]
    of [cells], in order, from [idx = 0]; [zero] is the zero value of [T]. *)
Definition fill {A : Type} (zero : A) (n : Z) (cells : list A) : outcome (list A) :=
  if n <? 0 then Panic
  else if len cells <=? n
       then Ok (cells ++ repeat zero (Z.to_nat n - length cells))
       else Panic.

(** ** Scalars: [float64] and its operations *)

Class Scalar (F : Type) : Type := {
  f0 : F;                    (* the literal 0 / 0.0, also make's zero value *)
  f0_1 : F;                  (* the literal 0.1 *)
  f1 : F;                    (* the literal 1.0 *)
  f255 : F;                  (* the literal 255.0 *)
  fadd : F -> F -> F;        (* a + b *)
  fmul : F -> F -> F;        (* a * b *)
  fdiv : F -> F -> F;        (* a / b *)
  fle : F -> F -> bool;      (* a <= b *)
  flt : F -> F -> bool;      (* a < b *)
  of_uint8 : Z -> F;         (* float64(c.Y) *)
  to_uint8 : F -> Z          (* uint8(v) *)
}.

Section Engine.

Context {F : Type} {SF : Scalar F}.

(** *** Helper functions (the end of the source file) *)

Definition mul (a b : F) : F := fmul a b.
Definition div (a b : F) : F := fdiv a b.
Definition add (a b : F) : F := fadd a b.
(* if a >= b { return a }; return b *)
Definition maximum (a b : F) : F := if fle b a then a else b.
(* if a <= b { return a }; return b *)
Definition minimum (a b : F) : F := if fle a b then a else b.

(** *** [mat64.Dense] (gonum, outside the repository): a row-major backing
    slice with its dimensions.  [NewDense] panics unless [len(data) = r*c];
    [At] panics outside the matrix; [Add] panics on different shapes. *)

Record Dense : Type := mkDense { Rows : Z; Cols : Z; Data : list F }.

Definition Dims (m : Dense) : Z * Z := (Rows m, Cols m).

Definition NewDense (r c : Z) (mat : list F) : outcome Dense :=
  if r * c =? len mat then Ok (mkDense r c mat) else Panic.

Definition At (m : Dense) (i j : Z) : outcome F :=
  if (0 <=? i) && (i <? Rows m) && (0 <=? j) && (j <? Cols m)
  then index (Data m) (i * Cols m + j)
  else Panic.

Fixpoint zipWith (f : F -> F -> F) (xs ys : list F) : list F :=
  match xs, ys with
  | x :: xs', y :: ys' => f x y :: zipWith f xs' ys'
  | _, _ => []
  end.

(* receiver.Add(a, b): the element-wise sum, stored in the receiver *)
Definition Add (a b : Dense) : outcome Dense :=
  if (Rows a =? Rows b) && (Cols a =? Cols b)
  then Ok (mkDense (Rows a) (Cols a) (zipWith fadd (Data a) (Data b)))
  else Panic.

(** *** [pad] *)

Definition pad (im : Dense) (padding : Z) : outcome Dense :=
  let '(r, c) := Dims im in
  let newRows := r + padding * 2 in
  let newCols := c + padding * 2 in
  do a00 <- At im 0 0;
  let topLeft := fdiv a00 f255 in
  do a0c <- At im 0 (c - 1);
  let topRight := fdiv a0c f255 in
  do ar0 <- At im (r - 1) 0;
  let bottomLeft := fdiv ar0 f255 in
  do arc <- At im (r - 1) (c - 1);
  let bottomRight := fdiv arc f255 in
  do top <- for_cells (zrange 0 padding) (zrange 0 newCols) (fun i j =>
      if j <? padding then Ok [topLeft]
      else if j >=? c then Ok [topRight]
      else do v <- At im padding j; Ok [fdiv v f255]);
  do mid <- for_cells (zrange padding r) (zrange 0 newCols) (fun i j =>
      let row := i - padding in      (* row starts at 0 and follows i *)
      if j <? padding then do v <- At im row 0; Ok [fdiv v f255]
      else if j >=? c then do v <- At im row (c - 1); Ok [fdiv v f255]
      else do v <- At im i j; Ok [fdiv v f255]);
  do bot <- for_cells (zrange r newRows) (zrange 0 newCols) (fun i j =>
      if j <? padding then Ok [bottomLeft]
      else if j >=? c then Ok [bottomRight]
      else do v <- At im (r - 1) j; Ok [fdiv v f255]);
  do newVec <- fill f0 (newRows * newCols) (top ++ mid ++ bot);
  NewDense newRows newCols newVec.

(** *** [calcConv] and [correlate] *)

(* f[a][b] on a [][]float64 *)
Definition kat (f : list (list F)) (a b : Z) : outcome F :=
  do row <- index f a; index row b.

(* res += im.At(i, j) * f[a][b] *)
Definition acc (im : Dense) (f : list (list F)) (res : F) (i j a b : Z) : outcome F :=
  do v <- At im i j;
  do k <- kat f a b;
  Ok (fadd res (fmul v k)).

Definition calcConv (x y : Z) (im : Dense) (f : list (list F)) : outcome F :=
  let res := f0 in
  do res <- acc im f res (x - 1) (y - 1) 0 0;
  do res <- acc im f res x (y - 1) 0 1;
  do res <- acc im f res (x + 1) (y - 1) 0 2;
  do res <- acc im f res (x - 1) y 1 0;
  do res <- acc im f res x y 1 1;
  do res <- acc im f res (x + 1) y 1 2;
  do res <- acc im f res (x - 1) (y + 1) 2 0;
  do res <- acc im f res x (y + 1) 2 1;
  do res <- acc im f res (x + 1) (y + 1) 2 2;
  Ok res.

Definition correlate (im : Dense) (f : list (list F)) : outcome Dense :=
  let '(r, c) := Dims im in
  let newRows := r - 2 in
  let newCols := c - 2 in
  do cells <- for_cells (zrange 0 r) (zrange 0 c) (fun i j =>
      if (i =? 0) || (j =? 0) || (i =? r - 1) || (j =? c - 1)
      then Ok []                                      (* continue *)
      else do v <- calcConv i j im f; Ok [v]);
  do newVec <- fill f0 (newRows * newCols) cells;
  NewDense newRows newCols newVec.

(** *** [broadcastMat], [broadcastVec], [clip] *)

Definition broadcastMat (mat : Dense) (n : F) (f : F -> F -> F) : outcome Dense :=
  let '(r, c) := Dims mat in
  do cells <- for_cells (zrange 0 r) (zrange 0 c) (fun y x =>
      do v <- At mat y x; Ok [f v n]);
  do newVec <- fill f0 (r * c) cells;
  NewDense r c newVec.

Definition broadcastVec (vec : list F) (n : F) (f : F -> F -> F) : list F :=
  map (fun v => f v n) vec.

(* the value stored for the element e *)
Definition clip1 (start end_ e : F) : F :=
  if flt e start then start
  else if flt end_ e then end_
  else e.

Definition clip (im : Dense) (start end_ : F) : outcome (list F) :=
  let '(r, c) := Dims im in
  do cells <- for_cells (zrange 0 r) (zrange 0 c) (fun y x =>
      do e <- At im y x; Ok [clip1 start end_ e]);
  fill f0 (r * c) cells.

(** *** The network *)

Record Model : Type := mkModel {
  Weight : list (list (list (list F)));
  NOutputPlane : Z;
  KW : Z;
  KH : Z;
  Bias : list F;
  NInputPlane : Z
}.

(** The order in which the coordinator of output plane [i] of layer [l]
    receives the results of its [fj] goroutines: task indices. *)
Definition Sched : Type := Z -> Z -> Z -> list Z.

Definition sched_ok (sched : Sched) : Prop :=
  forall l i fj, Permutation (sched l i fj) (zrange 0 fj).

(* the results arrive in task order *)
Definition in_order : Sched := fun _ _ fj => zrange 0 fj.

(** The receive loop [for k := 0; k < fj; k++ { p := <-resCh; ... }] on the
    results in their order of arrival; [progress] counts them. *)
Fixpoint receive (partial : option Dense) (progress : Z) (arrivals : list Dense)
  : outcome (option Dense * Z) :=
  match arrivals with
  | [] => Ok (partial, progress)
  | p :: rest =>
      do partial' <- match partial with
                     | None => Ok p                  (* partial = p *)
                     | Some q => Add q p             (* partial.Add(partial, p) *)
                     end;
      receive (Some partial') (progress + 1) rest
  end.

(** The results of the goroutines of one output plane, by task index [j]. *)
Definition convolutions (planes : list Dense) (wgt : list (list (list F)))
  : outcome (list Dense) :=
  let fj := Z.min (len planes) (len wgt) in
  mapM (fun j => do plane <- index planes j;
                 do kernel <- index wgt j;
                 correlate plane kernel) (zrange 0 fj).

(** One iteration of [for i := 0; i < fi; i++]. *)
Definition outputPlane (sched : Sched) (l : Z) (m : Model) (planes : list Dense)
  (progress : Z) (i : Z) : outcome (Dense * Z) :=
  do b <- index (Bias m) i;
  do wgt <- index (Weight m) i;
  let fj := Z.min (len planes) (len wgt) in
  do convs <- convolutions planes wgt;
  do arrivals <- mapM (index convs) (sched l i fj);
  do st <- receive None progress arrivals;
  let '(partial, progress) := st in
  match partial with
  | None => Panic                    (* broadcastMat reads the Dims of nil *)
  | Some partial => do o <- broadcastMat partial b add; Ok (o, progress)
  end.

Fixpoint outputPlanes (sched : Sched) (l : Z) (m : Model) (planes : list Dense)
  (oPlanes : list Dense) (progress : Z) (iter : list Z) : outcome (list Dense * Z) :=
  match iter with
  | [] => Ok (oPlanes, progress)
  | i :: iter' =>
      do st <- outputPlane sched l m planes progress i;
      let '(o, progress) := st in
      outputPlanes sched l m planes (oPlanes ++ [o]) progress iter'
  end.

(* the body of [for i, v := range oPlanes] *)
Definition leakyReLU (v : Dense) : outcome Dense :=
  do max <- broadcastMat v f0 maximum;
  do min <- broadcastMat v f0 minimum;
  do part <- broadcastMat min f0_1 mul;
  Add max part.

(** One iteration of [for _, m := range w.models]. *)
Definition layer (sched : Sched) (l : Z) (m : Model) (planes : list Dense)
  (progress : Z) : outcome (list Dense * Z) :=
  let fi := Z.min (len (Bias m)) (len (Weight m)) in
  do st <- outputPlanes sched l m planes [] progress (zrange 0 fi);
  let '(oPlanes, progress) := st in
  do planes' <- mapM leakyReLU oPlanes;
  Ok (planes', progress).

Fixpoint layers (sched : Sched) (l : Z) (models : list Model) (planes : list Dense)
  (progress : Z) : outcome (list Dense * Z) :=
  match models with
  | [] => Ok (planes, progress)
  | m :: models' =>
      do st <- layer sched l m planes progress;
      let '(planes', progress') := st in
      layers sched (l + 1) models' planes' progress'
  end.

(** The numeric part of [Exec]: from the luminance matrix [m] to the vector
    [vec] that is written back into the Y components. *)
Definition engine (sched : Sched) (models : list Model) (m : Dense) : outcome (list F) :=
  do padded <- pad m (len models);
  do st <- layers sched 0 models [padded] 0;
  let '(planes, _) := st in
  if negb (len planes =? 1) then Exit 1     (* fmt.Println("error"); os.Exit(1) *)
  else
    do p0 <- index planes 0;
    do vec <- clip p0 f0 f1;
    Ok (broadcastVec vec f255 mul).

End Engine.

Arguments Dense F : clear implicits.
Arguments Model F : clear implicits.

(** ** The program around the engine: images, [Exec], [SaveImage] *)

(* color.YCbCr: three uint8 components *)
Record YCbCr : Type := mkYCbCr { Y : Z; Cb : Z; Cr : Z }.

(** [image.Image] as [Exec] reads it: [Bounds().Max] and [At(x, y).RGBA()].
    [w.src] comes from [resize.Resize], whose [Bounds().Min] is the origin. *)
Record Image : Type := mkImage {
  MaxX : Z;
  MaxY : Z;
  colorAt : Z -> Z -> Z * Z * Z * Z
}.

(** Go's [image/color], [image/png] and [image/jpeg], outside the repository:
    the colour conversions and the encoders, which return the bytes they
    wrote and their error. *)
Inductive error : Type :=
| PathError (op path : string)
| EncodeError (msg : string).

Class ImageLib : Type := {
  RGBToYCbCr : Z -> Z -> Z -> Z * Z * Z;      (* color.RGBToYCbCr *)
  RGBA : Type;                                (* color.RGBA *)
  rgbaOf : YCbCr -> RGBA;                     (* color.RGBAModel.Convert *)
  png_Encode : option (Z * Z * list RGBA) -> list Byte.byte * option error;
  jpeg_Encode : option (Z * Z * list RGBA) -> list Byte.byte * option error
}.

(** The files the process sees: their contents by name, and whether the
    system lets the process create or truncate a name. *)
Record FileSystem : Type := mkFS {
  file : string -> option (list Byte.byte);
  creatable : string -> bool
}.

(* os.Create: the file is created or truncated; the empty name never opens *)
Definition os_Create (fs : FileSystem) (name : string) : FileSystem * option error :=
  if (name =? "")%string || negb (creatable fs name)
  then (fs, Some (PathError "open" name))
  else (mkFS (fun n => if (n =? name)%string then Some [] else file fs n)
             (creatable fs), None).

(* the bytes an encoder writes to the open file *)
Definition write (fs : FileSystem) (name : string) (bytes : list Byte.byte) : FileSystem :=
  mkFS (fun n => if (n =? name)%string
                 then match file fs n with
                      | Some old => Some (old ++ bytes)
                      | None => None
                      end
                 else file fs n)
       (creatable fs).

(* os.IsPathSeparator *)
Definition isPathSeparator (c : ascii) : bool := (c =? "/")%char.

Fixpoint hasSeparator (s : string) : bool :=
  match s with
  | EmptyString => false
  | String c s' => isPathSeparator c || hasSeparator s'
  end.

(** [filepath.Ext]: the suffix that starts at the last dot of the last
    element of [path], empty when that element has no dot. *)
Fixpoint filepath_Ext (path : string) : string :=
  match path with
  | EmptyString => EmptyString
  | String c rest =>
      let e := filepath_Ext rest in
      if negb (e =? "")%string || hasSeparator rest then e
      else if (c =? ".")%char then path
      else EmptyString
  end.

Section Program.

Context {F : Type} {SF : Scalar F} {IL : ImageLib}.

(* image.RGBA: the bounds' Max and the pixels, row by row *)
Definition RGBAImage : Type := (Z * Z * list RGBA)%type.

Record Waifu2x : Type := mkWaifu2x {
  models : list (Model F);
  src : Image;
  dst : option RGBAImage          (* nil until Exec sets it *)
}.

Definition uint8 (v : Z) : Z := v mod 256.

Definition convertYCbCr (img : Image) : outcome (list YCbCr) :=
  let colSize := MaxX img in
  let rowSize := MaxY img in
  do cells <- for_cells (zrange 0 rowSize) (zrange 0 colSize) (fun y x =>
      let '(r, g, b, _) := colorAt img x y in
      let '(Y, Cb, Cr) := RGBToYCbCr (uint8 r) (uint8 g) (uint8 b) in
      Ok [mkYCbCr Y Cb Cr]);
  fill (mkYCbCr 0 0 0) (rowSize * colSize) cells.

Definition extY (cl : list YCbCr) : list F :=
  map (fun c => of_uint8 (Y c)) cl.

(** [for i, v := range vec { c[i].Y = uint8(v) }] *)
Fixpoint mergeY (c : list YCbCr) (vec : list F) {struct vec} : outcome (list YCbCr) :=
  match vec, c with
  | [], _ => Ok c
  | v :: vec', px :: c' =>
      do rest <- mergeY c' vec';
      Ok (mkYCbCr (to_uint8 v) (Cb px) (Cr px) :: rest)
  | _ :: _, [] => Panic
  end.

(** [w.dst = image.NewRGBA(w.src.Bounds())] and the loop of [w.dst.Set];
    [idx] is [y*width + x] there. *)
Definition render (width height : Z) (c : list YCbCr) : outcome RGBAImage :=
  do pix <- for_cells (zrange 0 height) (zrange 0 width) (fun y x =>
      do px <- index c (y * width + x); Ok [rgbaOf px]);
  Ok (width, height, pix).

(** The colour raster [c] as [Exec] leaves it, before it is rendered. *)
Definition merged (sched : Sched) (w : Waifu2x) : outcome (list YCbCr) :=
  do c <- convertYCbCr (src w);
  let width := MaxX (src w) in
  let height := MaxY (src w) in
  do m <- NewDense height width (extY c);
  do vec <- engine sched (models w) m;
  mergeY c vec.

Definition Exec (sched : Sched) (w : Waifu2x) : outcome Waifu2x :=
  do c <- merged sched w;
  do d <- render (MaxX (src w)) (MaxY (src w)) c;
  Ok (mkWaifu2x (models w) (src w) (Some d)).

Definition SaveImage (w : Waifu2x) (fs : FileSystem) (name : string)
  : FileSystem * option error :=
  let ext := filepath_Ext name in
  let '(fs1, err) := os_Create fs name in
  match err with
  | Some e => (fs, Some e)                       (* return err *)
  | None =>
      if (ext =? ".png")%string then
        let '(bytes, err) := png_Encode (dst w) in (write fs1 name bytes, err)
      else if (ext =? ".jpeg")%string || (ext =? ".jpg")%string then
        let '(bytes, err) := jpeg_Encode (dst w) in (write fs1 name bytes, err)
      else (fs1, None)
  end.

End Program.

Arguments Waifu2x F {IL}.

(** ** Two scalar types *)

(** IEEE 754 binary64, the arithmetic of Go's [float64].  [uint8(v)]
    truncates towards zero and keeps the low eight bits (amd64; the language
    leaves values outside the range to the implementation). *)
Definition float_to_uint8 (v : float) : Z :=
  match Prim2SF v with
  | S754_finite s m e =>
      let t := if 0 <=? e then Z.pos m * 2 ^ e else Z.pos m / 2 ^ (- e) in
      (if s then - t else t) mod 256
  | _ => 0
  end.

#[global] Instance binary64 : Scalar float := {
  f0 := 0%float;
  f0_1 := 0x1.999999999999ap-4%float;      (* 0.1 rounded to nearest *)
  f1 := 1%float;
  f255 := 255%float;
  fadd := PrimFloat.add;
  fmul := PrimFloat.mul;
  fdiv := PrimFloat.div;
  fle := PrimFloat.leb;
  flt := PrimFloat.ltb;
  of_uint8 := fun z => PrimFloat.of_uint63 (Uint63.of_Z z);
  to_uint8 := float_to_uint8
}.

(** Exact rationals in lowest terms: the arithmetic of the specification's
    real numbers. *)
#[global] Instance exactQ : Scalar Q := {
  f0 := 0%Q;
  f0_1 := (1 # 10)%Q;
  f1 := 1%Q;
  f255 := 255%Q;
  fadd := fun a b => Qred (a + b);
  fmul := fun a b => Qred (a * b);
  fdiv := fun a b => Qred (a / b);
  fle := Qle_bool;
  flt := fun a b => negb (Qle_bool b a);
  of_uint8 := inject_Z;
  to_uint8 := fun q => Z.quot (Qnum q) (Z.pos (Qden q)) mod 256
}.

(** * Properties *)

(** ** Loops and slices *)

Lemma bind_Ok {A B : Type} (m : outcome A) (k : A -> outcome B) (b : B) :
  bind m k = Ok b -> exists a, m = Ok a /\ k a = Ok b.
Proof.
  destruct m as [a| |code]; simpl; intros E; try discriminate.
  exists a; split; [reflexivity | exact E].
Qed.

Lemma bind_assoc {A B C : Type} (m : outcome A) (f : A -> outcome B) (g : B -> outcome C) :
  bind (bind m f) g = bind m (fun a => bind (f a) g).
Proof. destruct m; reflexivity. Qed.

(* splits a hypothesis [bind m k = Ok b] *)
Ltac inv_bind H :=
  let a := fresh "v" in
  let E := fresh "E" in
  apply bind_Ok in H; destruct H as [a [E H]].

Tactic Notation "split_bind" hyp(H) "as" ident(a) ident(E) :=
  apply bind_Ok in H; destruct H as [a [E H]].

Lemma length_zrange (a b : Z) : length (zrange a b) = Z.to_nat (b - a).
Proof. unfold zrange. now rewrite length_map, length_seq. Qed.

Lemma len_zrange (a b : Z) : a <= b -> len (zrange a b) = b - a.
Proof. intros Hab. unfold len. rewrite length_zrange. lia. Qed.

Lemma In_zrange (a b i : Z) : In i (zrange a b) <-> a <= i < b.
Proof.
  unfold zrange. rewrite in_map_iff. split.
  - intros [k [<- Hk]]. apply in_seq in Hk. lia.
  - intros Hi. exists (Z.to_nat (i - a)). split; [lia|]. apply in_seq. lia.
Qed.

Lemma zrange_empty (a b : Z) : b <= a -> zrange a b = [].
Proof. intros Hab. unfold zrange. now replace (Z.to_nat (b - a)) with 0%nat by lia. Qed.

Lemma zrange_cons (a b : Z) : a < b -> zrange a b = a :: zrange (a + 1) b.
Proof.
  intros Hab. unfold zrange.
  replace (Z.to_nat (b - a)) with (S (Z.to_nat (b - (a + 1)))) by lia.
  simpl. f_equal; [lia|].
  rewrite <- seq_shift, map_map. apply map_ext. intros k. lia.
Qed.

Lemma zrange_snoc (a b : Z) : a < b -> zrange a b = zrange a (b - 1) ++ [b - 1].
Proof.
  intros Hab. unfold zrange.
  replace (Z.to_nat (b - a)) with (Z.to_nat (b - 1 - a) + 1)%nat by lia.
  rewrite seq_app, map_app. simpl. do 2 f_equal. lia.
Qed.

Lemma nth_error_zrange (a b : Z) (k : nat) :
  (k < Z.to_nat (b - a))%nat -> nth_error (zrange a b) k = Some (a + Z.of_nat k).
Proof.
  intros Hk. unfold zrange.
  rewrite nth_error_map, nth_error_seq.
  destruct (Nat.ltb_spec k (Z.to_nat (b - a))); [reflexivity | lia].
Qed.

Lemma mapM_ok {A B : Type} (f : A -> outcome B) (g : A -> B) (l : list A) :
  (forall a, In a l -> f a = Ok (g a)) -> mapM f l = Ok (map g l).
Proof.
  induction l as [|a l IH]; intros Hf; simpl; [reflexivity|].
  rewrite (Hf a (or_introl eq_refl)). simpl.
  rewrite IH by (intros; apply Hf; now right). reflexivity.
Qed.

Lemma mapM_inv {A B : Type} (f : A -> outcome B) (l : list A) (bs : list B) :
  mapM f l = Ok bs -> Forall2 (fun a b => f a = Ok b) l bs.
Proof.
  revert bs. induction l as [|a l IH]; simpl; intros bs H.
  - injection H as <-. constructor.
  - inv_bind H. inv_bind H. injection H as <-. constructor; auto.
Qed.

Lemma Forall2_In_r {A B : Type} (P : A -> B -> Prop) (l : list A) (l' : list B) (b : B) :
  Forall2 P l l' -> In b l' -> exists a, In a l /\ P a b.
Proof.
  induction 1 as [|x y l l' Hxy _ IH]; simpl; [tauto|].
  intros [<-|Hin].
  - exists x. auto.
  - destruct (IH Hin) as (a & Ha & Hp). exists a. auto.
Qed.

Lemma mapM_length {A B : Type} (f : A -> outcome B) (l : list A) (bs : list B) :
  mapM f l = Ok bs -> length bs = length l.
Proof. intros H. apply mapM_inv in H. symmetry. eapply Forall2_length, H. Qed.

Lemma flat_map_ext_in {A B : Type} (f g : A -> list B) (l : list A) :
  (forall a, In a l -> f a = g a) -> flat_map f l = flat_map g l.
Proof.
  induction l as [|a l IH]; intros H; simpl; [reflexivity|].
  rewrite (H a (or_introl eq_refl)), IH; [reflexivity|].
  intros; apply H; now right.
Qed.

Lemma flat_map_nil {A B : Type} (l : list A) : flat_map (fun _ : A => @nil B) l = [].
Proof. induction l; simpl; auto. Qed.

Lemma flat_map_single {A B : Type} (f : A -> B) (l : list A) :
  flat_map (fun a => [f a]) l = map f l.
Proof. induction l; simpl; congruence. Qed.

Lemma for_cells_ok {B : Type} (rs cs : list Z) (body : Z -> Z -> outcome (list B))
  (g : Z -> Z -> list B) :
  (forall i j, In i rs -> In j cs -> body i j = Ok (g i j)) ->
  for_cells rs cs body = Ok (flat_map (fun i => flat_map (g i) cs) rs).
Proof.
  intros Hb. unfold for_cells.
  rewrite (mapM_ok _ (fun i => flat_map (g i) cs)).
  - simpl. now rewrite <- flat_map_concat_map.
  - intros i Hi. rewrite (mapM_ok _ (g i)) by (intros; now apply Hb).
    simpl. now rewrite <- flat_map_concat_map.
Qed.

Lemma length_flat_map_const {A B : Type} (f : A -> list B) (l : list A) (n : nat) :
  (forall a, In a l -> length (f a) = n) -> length (flat_map f l) = (length l * n)%nat.
Proof.
  induction l as [|a l IH]; intros H; simpl; [reflexivity|].
  rewrite length_app, (H a (or_introl eq_refl)), IH; [reflexivity|].
  intros; apply H; now right.
Qed.

Lemma nth_error_flat_map_const {A B : Type} (f : A -> list B) (l : list A) (n i j : nat) :
  (forall a, In a l -> length (f a) = n) -> (j < n)%nat ->
  nth_error (flat_map f l) (i * n + j) =
  match nth_error l i with Some a => nth_error (f a) j | None => None end.
Proof.
  intros Hlen Hj. revert i. induction l as [|a l IH]; intros i; simpl.
  - destruct i; simpl; now rewrite ?nth_error_nil.
  - pose proof (Hlen a (or_introl eq_refl)) as Ha.
    destruct i as [|i]; simpl.
    + rewrite nth_error_app1 by lia. reflexivity.
    + rewrite nth_error_app2 by lia.
      replace (n + i * n + j - length (f a))%nat with (i * n + j)%nat by lia.
      apply IH. intros; apply Hlen; now right.
Qed.

Lemma list_eq_nth_error {A : Type} (l1 l2 : list A) :
  length l1 = length l2 ->
  (forall k, (k < length l1)%nat -> nth_error l1 k = nth_error l2 k) -> l1 = l2.
Proof.
  revert l2. induction l1 as [|a l1 IH]; intros [|b l2] Hlen H; simpl in *;
    try discriminate; [reflexivity|].
  f_equal.
  - specialize (H 0%nat ltac:(lia)). simpl in H. congruence.
  - apply IH; [lia|]. intros k Hk. apply (H (S k)). lia.
Qed.

(** A slice of [r * c] elements read as [r] rows of [c]: the double loop
    over [y] and [x] visits the index [y*c + x] in the slice's order. *)
Lemma row_major_slice {A B : Type} (h : A -> B) (d : A) (s : list A) (r c : Z) :
  0 <= r -> 0 <= c -> len s = r * c ->
  flat_map (fun y => flat_map (fun x => [h (nth (Z.to_nat (y * c + x)) s d)])
                              (zrange 0 c)) (zrange 0 r)
  = map h s.
Proof.
  intros Hr Hc Hl. unfold len in Hl.
  assert (Hrow : forall y, In y (zrange 0 r) ->
            length (flat_map (fun x => [h (nth (Z.to_nat (y * c + x)) s d)]) (zrange 0 c))
            = Z.to_nat c).
  { intros y _. rewrite flat_map_single, length_map, length_zrange. lia. }
  apply list_eq_nth_error.
  - rewrite (length_flat_map_const _ _ _ Hrow), length_zrange, length_map. nia.
  - intros k Hk.
    rewrite (length_flat_map_const _ _ _ Hrow), length_zrange in Hk.
    assert (Hc0 : (0 < Z.to_nat c)%nat) by nia.
    pose proof (Nat.div_mod_eq k (Z.to_nat c)) as Hdm.
    pose proof (Nat.mod_upper_bound k (Z.to_nat c) ltac:(lia)) as Hm.
    set (i := (k / Z.to_nat c)%nat) in *.
    set (j := (k mod Z.to_nat c)%nat) in *.
    assert (Hi : (i < Z.to_nat r)%nat) by nia.
    replace k with (i * Z.to_nat c + j)%nat at 1 by lia.
    rewrite (nth_error_flat_map_const _ _ _ _ _ Hrow Hm).
    rewrite nth_error_zrange by lia.
    rewrite flat_map_single, nth_error_map, nth_error_zrange by lia. simpl.
    rewrite nth_error_map, (nth_error_nth' _ d) by nia. simpl.
    do 2 f_equal.
    replace c with (Z.of_nat (Z.to_nat c)) by lia.
    rewrite <- Nat2Z.inj_mul, <- Nat2Z.inj_add, !Nat2Z.id.
    clearbody i j. f_equal. lia.
Qed.

Lemma index_Ok {A : Type} (s : list A) (i : Z) (v : A) :
  index s i = Ok v <-> 0 <= i /\ nth_error s (Z.to_nat i) = Some v.
Proof.
  unfold index. destruct (Z.ltb_spec i 0).
  - split; [discriminate | lia].
  - destruct (nth_error s (Z.to_nat i)); split; intros H'; try discriminate.
    + injection H' as <-. auto.
    + destruct H' as [_ H']. congruence.
    + destruct H' as [_ H']. discriminate.
Qed.

Lemma index_in_range {A : Type} (s : list A) (i : Z) :
  0 <= i < len s -> exists v, index s i = Ok v.
Proof.
  intros Hi. unfold len in Hi.
  destruct (nth_error s (Z.to_nat i)) as [v|] eqn:E.
  - exists v. apply index_Ok. split; [lia | exact E].
  - apply nth_error_None in E. lia.
Qed.

Lemma index_nth {A : Type} (s : list A) (i : Z) (d : A) :
  0 <= i < len s -> index s i = Ok (nth (Z.to_nat i) s d).
Proof.
  intros Hi. unfold len in Hi. apply index_Ok. split; [lia|].
  apply nth_error_nth'. lia.
Qed.

Lemma len_app {A : Type} (l1 l2 : list A) : len (l1 ++ l2) = len l1 + len l2.
Proof. unfold len. rewrite length_app. lia. Qed.

Lemma fill_exact {A : Type} (zero : A) (n : Z) (cells : list A) :
  len cells = n -> fill zero n cells = Ok cells.
Proof.
  intros <-. unfold fill, len.
  destruct (Z.ltb_spec (Z.of_nat (length cells)) 0); [lia|].
  rewrite Z.leb_refl. rewrite Nat2Z.id, Nat.sub_diag. simpl. now rewrite app_nil_r.
Qed.

Lemma fill_len {A : Type} (zero : A) (n : Z) (cells vec : list A) :
  fill zero n cells = Ok vec -> len vec = n /\ 0 <= n.
Proof.
  unfold fill, len. destruct (Z.ltb_spec n 0); [discriminate|].
  destruct (Z.leb_spec (Z.of_nat (length cells)) n); [|discriminate].
  intros E. injection E as <-. rewrite length_app, repeat_length. lia.
Qed.

(** ** Matrices *)

Section DenseFacts.

Context {F : Type} {SF : Scalar F}.

(** A matrix as [NewDense] builds it from dimensions that are not negative. *)
Definition wf_dense (d : Dense F) : Prop :=
  0 <= Rows d /\ 0 <= Cols d /\ len (Data d) = Rows d * Cols d.

(** The element [(i, j)], read without the bounds check. *)
Definition get (d : Dense F) (i j : Z) : F :=
  nth (Z.to_nat (i * Cols d + j)) (Data d) f0.

Lemma At_get (d : Dense F) (i j : Z) :
  wf_dense d -> 0 <= i < Rows d -> 0 <= j < Cols d -> At d i j = Ok (get d i j).
Proof.
  intros (Hr & Hc & Hl) Hi Hj. unfold At, get.
  replace (0 <=? i) with true by (symmetry; apply Z.leb_le; lia).
  replace (i <? Rows d) with true by (symmetry; apply Z.ltb_lt; lia).
  replace (0 <=? j) with true by (symmetry; apply Z.leb_le; lia).
  replace (j <? Cols d) with true by (symmetry; apply Z.ltb_lt; lia).
  simpl. apply index_nth. rewrite Hl. nia.
Qed.

Lemma At_Ok_range (d : Dense F) (i j : Z) (v : F) :
  At d i j = Ok v -> 0 <= i < Rows d /\ 0 <= j < Cols d.
Proof.
  unfold At.
  destruct (Z.leb_spec 0 i), (Z.ltb_spec i (Rows d)), (Z.leb_spec 0 j),
    (Z.ltb_spec j (Cols d)); simpl; try discriminate. lia.
Qed.

Lemma NewDense_Ok (r c : Z) (vec : list F) (d : Dense F) :
  NewDense r c vec = Ok d -> d = mkDense r c vec /\ len vec = r * c.
Proof.
  unfold NewDense. destruct (Z.eqb_spec (r * c) (len vec)); [|discriminate].
  intros E. injection E as <-. auto.
Qed.

Lemma NewDense_exact (r c : Z) (vec : list F) :
  len vec = r * c -> NewDense r c vec = Ok (mkDense r c vec).
Proof. intros E. unfold NewDense. now rewrite E, Z.eqb_refl. Qed.

(** Reading every cell of a matrix row by row, as the double loops of
    [broadcastMat] and [clip] do, visits the backing slice in order. *)
Lemma row_major (B : Type) (h : F -> B) (d : Dense F) :
  wf_dense d ->
  flat_map (fun y => flat_map (fun x => [h (get d y x)]) (zrange 0 (Cols d)))
           (zrange 0 (Rows d))
  = map h (Data d).
Proof.
  intros (Hr & Hc & Hl). unfold get. now apply row_major_slice.
Qed.

Lemma read_cells (B : Type) (h : F -> B) (d : Dense F) :
  wf_dense d ->
  for_cells (zrange 0 (Rows d)) (zrange 0 (Cols d))
            (fun y x => do v <- At d y x; Ok [h v])
  = Ok (map h (Data d)).
Proof.
  intros Hwf.
  rewrite (for_cells_ok _ _ _ (fun y x => [h (get d y x)])).
  - now rewrite row_major.
  - intros i j Hi Hj. apply In_zrange in Hi, Hj.
    rewrite At_get by (auto; lia). reflexivity.
Qed.

Lemma broadcastMat_ok (d : Dense F) (n : F) (f : F -> F -> F) :
  wf_dense d ->
  broadcastMat d n f = Ok (mkDense (Rows d) (Cols d) (map (fun v => f v n) (Data d))).
Proof.
  intros Hwf. unfold broadcastMat, Dims.
  rewrite (read_cells _ (fun v => f v n)) by assumption. simpl.
  destruct Hwf as (_ & _ & Hl).
  assert (Hm : len (map (fun v => f v n) (Data d)) = Rows d * Cols d)
    by (unfold len in *; now rewrite length_map).
  rewrite fill_exact by assumption. simpl.
  now apply NewDense_exact.
Qed.

Lemma broadcastMat_dims (d o : Dense F) (n : F) (f : F -> F -> F) :
  broadcastMat d n f = Ok o -> Dims o = Dims d /\ len (Data o) = Rows d * Cols d.
Proof.
  unfold broadcastMat, Dims. intros H.
  inv_bind H. inv_bind H. apply NewDense_Ok in H as [-> Hl]. simpl. auto.
Qed.

Lemma clip_ok (d : Dense F) (start end_ : F) :
  wf_dense d -> clip d start end_ = Ok (map (clip1 start end_) (Data d)).
Proof.
  intros Hwf. unfold clip, Dims.
  rewrite (read_cells _ (clip1 start end_)) by assumption. simpl.
  apply fill_exact. destruct Hwf as (_ & _ & Hl).
  unfold len in *. now rewrite length_map.
Qed.

Lemma clip_len (d : Dense F) (start end_ : F) (vec : list F) :
  clip d start end_ = Ok vec -> len vec = Rows d * Cols d.
Proof.
  unfold clip, Dims. intros H. inv_bind H. now apply fill_len in H.
Qed.

Lemma length_zipWith (f : F -> F -> F) (xs ys : list F) :
  length (zipWith f xs ys) = Nat.min (length xs) (length ys).
Proof.
  revert ys. induction xs as [|x xs IH]; intros [|y ys]; simpl; auto.
Qed.

Lemma zipWith_map2 (f : F -> F -> F) (g h : F -> F) (xs : list F) :
  zipWith f (map g xs) (map h xs) = map (fun x => f (g x) (h x)) xs.
Proof. induction xs; simpl; congruence. Qed.

Lemma Add_Ok (a b o : Dense F) :
  Add a b = Ok o ->
  Dims a = Dims b /\ o = mkDense (Rows a) (Cols a) (zipWith fadd (Data a) (Data b)).
Proof.
  unfold Add, Dims.
  destruct (Z.eqb_spec (Rows a) (Rows b)), (Z.eqb_spec (Cols a) (Cols b));
    simpl; try discriminate.
  intros E. injection E as <-. split; congruence.
Qed.

Lemma Add_same_dims (a b : Dense F) :
  Dims a = Dims b ->
  Add a b = Ok (mkDense (Rows a) (Cols a) (zipWith fadd (Data a) (Data b))).
Proof.
  unfold Add, Dims. intros E. injection E as -> ->. now rewrite !Z.eqb_refl.
Qed.

Lemma Add_wf (a b o : Dense F) :
  wf_dense a -> wf_dense b -> Add a b = Ok o -> wf_dense o /\ Dims o = Dims a.
Proof.
  intros (Ha1 & Ha2 & Ha3) (Hb1 & Hb2 & Hb3) H.
  apply Add_Ok in H as [Hd ->]. unfold Dims in Hd. injection Hd as Hr Hc.
  unfold wf_dense, Dims, len in *. simpl. rewrite length_zipWith.
  repeat split; lia.
Qed.

End DenseFacts.

(** ** [calcConv] and [correlate] *)

Section CorrelateFacts.

Context {F : Type} {SF : Scalar F}.

(** A kernel with at least three rows of at least three weights: every
    [f[a][b]] that [calcConv] reads exists. *)
Definition kernel3 (f : list (list F)) : bool :=
  (3 <=? len f) && forallb (fun row => 3 <=? len row) (firstn 3 f).

(* f[a][b], read without the bounds check *)
Definition kget (f : list (list F)) (a b : Z) : F :=
  nth (Z.to_nat b) (nth (Z.to_nat a) f []) f0.

(** The value [calcConv(x, y, im, f)] computes, in its order of summation:
    the weight [f[a][b]] multiplies the input at row [x - 1 + b] and column
    [y - 1 + a]. *)
Definition convAt (im : Dense F) (f : list (list F)) (x y : Z) : F :=
  let t res i j a b := fadd res (fmul (get im i j) (kget f a b)) in
  let res := f0 in
  let res := t res (x - 1) (y - 1) 0 0 in
  let res := t res x (y - 1) 0 1 in
  let res := t res (x + 1) (y - 1) 0 2 in
  let res := t res (x - 1) y 1 0 in
  let res := t res x y 1 1 in
  let res := t res (x + 1) y 1 2 in
  let res := t res (x - 1) (y + 1) 2 0 in
  let res := t res x (y + 1) 2 1 in
  t res (x + 1) (y + 1) 2 2.

(** What the specification calls valid cross-correlation: output cell
    [(i, j)] is the sum over the 3x3 neighbourhood with top-left corner
    [(i, j)] of input element [(i + a, j + b)] times kernel element [(a, b)]. *)
Definition crossCorrelation (im : Dense F) (f : list (list F)) (i j : Z) : F :=
  fold_left (fun res ab => fadd res (fmul (get im (i + fst ab) (j + snd ab))
                                          (kget f (fst ab) (snd ab))))
            [(0, 0); (0, 1); (0, 2); (1, 0); (1, 1); (1, 2); (2, 0); (2, 1); (2, 2)]
            f0.

Lemma kat_get (f : list (list F)) (a b : Z) :
  kernel3 f = true -> 0 <= a < 3 -> 0 <= b < 3 -> kat f a b = Ok (kget f a b).
Proof.
  unfold kernel3. intros Hk Ha Hb.
  apply andb_true_iff in Hk as [Hlen Hrows].
  apply Z.leb_le in Hlen. rewrite forallb_forall in Hrows.
  unfold kat, kget.
  rewrite (index_nth f a []) by lia. simpl.
  apply index_nth. split; [lia|].
  assert (Hin : In (nth (Z.to_nat a) f []) (firstn 3 f)).
  { unfold len in Hlen.
    rewrite <- (firstn_skipn 3 f) at 1.
    rewrite app_nth1 by (rewrite length_firstn; lia).
    apply nth_In. rewrite length_firstn. lia. }
  apply Hrows, Z.leb_le in Hin. lia.
Qed.

Lemma acc_ok (im : Dense F) (f : list (list F)) (res : F) (i j a b : Z) :
  wf_dense im -> kernel3 f = true ->
  0 <= i < Rows im -> 0 <= j < Cols im -> 0 <= a < 3 -> 0 <= b < 3 ->
  acc im f res i j a b = Ok (fadd res (fmul (get im i j) (kget f a b))).
Proof.
  intros Hwf Hk Hi Hj Ha Hb. unfold acc.
  rewrite At_get by assumption. simpl.
  rewrite kat_get by assumption. reflexivity.
Qed.

Lemma calcConv_ok (im : Dense F) (f : list (list F)) (x y : Z) :
  wf_dense im -> kernel3 f = true ->
  1 <= x <= Rows im - 2 -> 1 <= y <= Cols im - 2 ->
  calcConv x y im f = Ok (convAt im f x y).
Proof.
  intros Hwf Hk Hx Hy. unfold calcConv, convAt.
  repeat (rewrite acc_ok by (assumption || lia); simpl).
  reflexivity.
Qed.

Lemma zrange_ends (n : Z) : 2 <= n -> zrange 0 n = 0 :: zrange 1 (n - 1) ++ [n - 1].
Proof.
  intros Hn. rewrite (zrange_cons 0 n) by lia. f_equal.
  replace (0 + 1) with 1 by lia. apply zrange_snoc. lia.
Qed.

Lemma flat_map_ends (A B : Type) (g : A -> list B) (a b : A) (l : list A) :
  g a = [] -> g b = [] -> flat_map g (a :: l ++ [b]) = flat_map g l.
Proof.
  intros Ha Hb. simpl. rewrite Ha, flat_map_app. simpl.
  now rewrite Hb, !app_nil_r.
Qed.

(** The cells [correlate] writes: the border is skipped, the interior is
    visited row by row. *)
Lemma interior_cells (B : Type) (cv : Z -> Z -> B) (r c : Z) :
  2 <= r -> 2 <= c ->
  flat_map (fun i => flat_map (fun j =>
      if (i =? 0) || (j =? 0) || (i =? r - 1) || (j =? c - 1) then [] else [cv i j])
      (zrange 0 c)) (zrange 0 r)
  = flat_map (fun i => map (cv i) (zrange 1 (c - 1))) (zrange 1 (r - 1)).
Proof.
  intros Hr Hc.
  rewrite (zrange_ends r Hr), flat_map_ends.
  - apply flat_map_ext_in. intros i Hi. apply In_zrange in Hi.
    rewrite (zrange_ends c Hc), flat_map_ends.
    + rewrite <- flat_map_single. apply flat_map_ext_in. intros j Hj.
      apply In_zrange in Hj.
      destruct (Z.eqb_spec i 0), (Z.eqb_spec j 0), (Z.eqb_spec i (r - 1)),
        (Z.eqb_spec j (c - 1)); simpl; try lia. reflexivity.
    + now rewrite Z.eqb_refl, orb_true_r.
    + now rewrite Z.eqb_refl, !orb_true_r.
  - transitivity (flat_map (fun _ : Z => @nil B) (zrange 0 c));
      [|apply flat_map_nil].
    apply flat_map_ext_in. intros j _. reflexivity.
  - transitivity (flat_map (fun _ : Z => @nil B) (zrange 0 c));
      [|apply flat_map_nil].
    apply flat_map_ext_in. intros j _.
    now rewrite Z.eqb_refl, orb_true_r.
Qed.

Lemma length_interior (B : Type) (cv : Z -> Z -> B) (r c : Z) :
  2 <= r -> 2 <= c ->
  len (flat_map (fun i => map (cv i) (zrange 1 (c - 1))) (zrange 1 (r - 1)))
  = (r - 2) * (c - 2).
Proof.
  intros Hr Hc. unfold len.
  rewrite (length_flat_map_const _ _ (Z.to_nat (c - 2))).
  - rewrite length_zrange. nia.
  - intros i _. rewrite length_map, length_zrange. f_equal. lia.
Qed.

Lemma correlate_ok (im : Dense F) (f : list (list F)) :
  wf_dense im -> kernel3 f = true -> 2 <= Rows im -> 2 <= Cols im ->
  correlate im f =
  Ok (mkDense (Rows im - 2) (Cols im - 2)
        (flat_map (fun i => map (convAt im f i) (zrange 1 (Cols im - 1)))
                  (zrange 1 (Rows im - 1)))).
Proof.
  intros Hwf Hk Hr Hc. unfold correlate, Dims.
  rewrite (for_cells_ok _ _ _ (fun i j =>
    if (i =? 0) || (j =? 0) || (i =? Rows im - 1) || (j =? Cols im - 1)
    then [] else [convAt im f i j])).
  - simpl. rewrite interior_cells by assumption.
    rewrite fill_exact by (now apply length_interior). simpl.
    apply NewDense_exact. now rewrite length_interior.
  - intros i j Hi Hj. apply In_zrange in Hi, Hj.
    destruct (Z.eqb_spec i 0), (Z.eqb_spec j 0), (Z.eqb_spec i (Rows im - 1)),
      (Z.eqb_spec j (Cols im - 1)); simpl; try reflexivity.
    rewrite calcConv_ok by (assumption || lia). reflexivity.
Qed.

Lemma correlate_dims (im o : Dense F) (f : list (list F)) :
  correlate im f = Ok o ->
  Dims o = (Rows im - 2, Cols im - 2) /\
  len (Data o) = (Rows im - 2) * (Cols im - 2).
Proof.
  unfold correlate, Dims. intros H.
  inv_bind H. inv_bind H. apply NewDense_Ok in H as [-> Hl]. simpl. auto.
Qed.

(** Output cell [(i, j)] of [correlate] is [calcConv] at input cell
    [(i + 1, j + 1)]. *)
Lemma correlate_cell (im o : Dense F) (f : list (list F)) (i j : Z) :
  wf_dense im -> kernel3 f = true -> correlate im f = Ok o ->
  0 <= i < Rows im - 2 -> 0 <= j < Cols im - 2 ->
  At o i j = Ok (convAt im f (i + 1) (j + 1)).
Proof.
  intros Hwf Hk H Hi Hj.
  rewrite correlate_ok in H by (assumption || lia). injection H as <-.
  assert (Hwo : wf_dense (mkDense (Rows im - 2) (Cols im - 2)
      (flat_map (fun i => map (convAt im f i) (zrange 1 (Cols im - 1)))
                (zrange 1 (Rows im - 1))))).
  { unfold wf_dense. simpl. rewrite length_interior by lia. lia. }
  rewrite At_get by (auto; simpl; lia). f_equal. unfold get. simpl.
  apply nth_error_nth.
  replace (Z.to_nat (i * (Cols im - 2) + j))
    with (Z.to_nat i * Z.to_nat (Cols im - 2) + Z.to_nat j)%nat by nia.
  rewrite (nth_error_flat_map_const _ _ (Z.to_nat (Cols im - 2))).
  - rewrite nth_error_zrange by lia.
    rewrite nth_error_map, nth_error_zrange by lia. cbn -[Z.add].
    do 2 f_equal; lia.
  - intros a _. rewrite length_map, length_zrange. f_equal. lia.
  - lia.
Qed.

End CorrelateFacts.

(** ** [pad] *)

Section PadFacts.

Context {F : Type} {SF : Scalar F}.

Lemma len_cells (B : Type) (g : Z -> Z -> list B) (rs cs : list Z) :
  (forall i j, In i rs -> In j cs -> length (g i j) = 1%nat) ->
  len (flat_map (fun i => flat_map (g i) cs) rs) = len rs * len cs.
Proof.
  intros Hg. unfold len.
  rewrite (length_flat_map_const _ _ (length cs)); [lia|].
  intros i Hi. rewrite (length_flat_map_const _ _ 1%nat); [lia|].
  intros j Hj. now apply Hg.
Qed.

Lemma pad_dims (im o : Dense F) (padding : Z) :
  pad im padding = Ok o ->
  Dims o = (Rows im + padding * 2, Cols im + padding * 2) /\
  len (Data o) = (Rows im + padding * 2) * (Cols im + padding * 2) /\
  1 <= Rows im /\ 1 <= Cols im.
Proof.
  unfold pad, Dims. intros H.
  inv_bind H. apply At_Ok_range in E.
  do 7 inv_bind H. apply NewDense_Ok in H as [-> Hl]. simpl.
  repeat split; auto; lia.
Qed.

(** [pad] returns whenever the matrix has a column and more rows than the
    padding. *)
Lemma pad_ok (im : Dense F) (padding : Z) :
  wf_dense im -> 1 <= Cols im -> 0 <= padding < Rows im ->
  exists vec,
    pad im padding
    = Ok (mkDense (Rows im + padding * 2) (Cols im + padding * 2) vec) /\
    len vec = (Rows im + padding * 2) * (Cols im + padding * 2).
Proof.
  intros Hwf Hc Hp. unfold pad, Dims.
  set (r := Rows im) in *. set (c := Cols im) in *.
  rewrite !At_get by (assumption || lia). simpl.
  set (tl := fdiv (get im 0 0) f255).
  set (tr := fdiv (get im 0 (c - 1)) f255).
  set (bl := fdiv (get im (r - 1) 0) f255).
  set (br := fdiv (get im (r - 1) (c - 1)) f255).
  rewrite (for_cells_ok _ _ _ (fun i j =>
    if j <? padding then [tl] else if j >=? c then [tr]
    else [fdiv (get im padding j) f255])).
  2:{ intros i j Hi Hj. apply In_zrange in Hi, Hj.
      destruct (Z.ltb_spec j padding); [reflexivity|].
      destruct (Z.geb_spec j c); [reflexivity|].
      rewrite At_get by (assumption || lia). reflexivity. }
  simpl.
  rewrite (for_cells_ok _ _ _ (fun i j =>
    if j <? padding then [fdiv (get im (i - padding) 0) f255]
    else if j >=? c then [fdiv (get im (i - padding) (c - 1)) f255]
    else [fdiv (get im i j) f255])).
  2:{ intros i j Hi Hj. apply In_zrange in Hi, Hj.
      destruct (Z.ltb_spec j padding);
        [rewrite At_get by (assumption || lia); reflexivity|].
      destruct (Z.geb_spec j c);
        rewrite At_get by (assumption || lia); reflexivity. }
  simpl.
  rewrite (for_cells_ok _ _ _ (fun i j =>
    if j <? padding then [bl] else if j >=? c then [br]
    else [fdiv (get im (r - 1) j) f255])).
  2:{ intros i j Hi Hj. apply In_zrange in Hi, Hj.
      destruct (Z.ltb_spec j padding); [reflexivity|].
      destruct (Z.geb_spec j c); [reflexivity|].
      rewrite At_get by (assumption || lia). reflexivity. }
  simpl.
  match goal with
  | |- context [fill f0 _ ?cells] =>
      assert (Hlen : len cells = (r + padding * 2) * (c + padding * 2))
  end.
  { rewrite !len_app.
    rewrite !len_cells
      by (intros i j _ _; destruct (j <? padding); [reflexivity|];
          destruct (j >=? c); reflexivity).
    rewrite !len_zrange by lia. lia. }
  rewrite fill_exact by exact Hlen. simpl.
  eexists. split; [apply NewDense_exact; now rewrite Hlen | exact Hlen].
Qed.

End PadFacts.

(** ** Layers *)

Section LayerFacts.

Context {F : Type} {SF : Scalar F}.

(** The planes of one stage: built by [NewDense], all of one shape. *)
Definition good (r c : Z) (planes : list (Dense F)) : Prop :=
  Forall (fun p => wf_dense p /\ Dims p = (r, c)) planes.

(** What the LeakyReLU loop stores for the element [x]:
    [maximum(x, 0) + mul(minimum(x, 0), 0.1)]. *)
Definition activated (x : F) : F :=
  fadd (maximum x f0) (mul (minimum x f0) f0_1).

Definition activate (v : Dense F) : Dense F :=
  mkDense (Rows v) (Cols v) (map activated (Data v)).

Lemma wf_map (d : Dense F) (h : F -> F) :
  wf_dense d -> wf_dense (mkDense (Rows d) (Cols d) (map h (Data d))).
Proof.
  unfold wf_dense, len. simpl. now rewrite length_map.
Qed.

Lemma leakyReLU_ok (v : Dense F) : wf_dense v -> leakyReLU v = Ok (activate v).
Proof.
  intros Hwf. unfold leakyReLU.
  rewrite !broadcastMat_ok by assumption. simpl.
  rewrite broadcastMat_ok by (apply (wf_map v), Hwf). simpl.
  rewrite Add_same_dims by reflexivity. simpl.
  unfold activate. do 2 f_equal.
  rewrite map_map. apply zipWith_map2.
Qed.

Lemma activate_good (r c : Z) (v : Dense F) :
  wf_dense v /\ Dims v = (r, c) -> wf_dense (activate v) /\ Dims (activate v) = (r, c).
Proof.
  intros [Hwf Hd]. split; [apply wf_map, Hwf | exact Hd].
Qed.

Lemma mapM_leakyReLU (r c : Z) (oPlanes : list (Dense F)) :
  good r c oPlanes -> mapM leakyReLU oPlanes = Ok (map activate oPlanes).
Proof.
  intros Hg. apply mapM_ok. intros v Hv.
  unfold good in Hg. rewrite Forall_forall in Hg.
  apply leakyReLU_ok, (Hg v Hv).
Qed.

Lemma convolutions_inv (r c : Z) (planes convs : list (Dense F))
  (wgt : list (list (list F))) :
  2 <= r -> 2 <= c -> good r c planes ->
  convolutions planes wgt = Ok convs ->
  good (r - 2) (c - 2) convs /\ len convs = Z.min (len planes) (len wgt).
Proof.
  intros Hr Hc Hg H. unfold convolutions in H.
  pose proof (mapM_length _ _ _ H) as Hlen.
  apply mapM_inv in H. split.
  - unfold good in *. rewrite Forall_forall in *. intros conv Hin.
    destruct (Forall2_In_r _ _ _ _ H Hin) as (j & _ & Hj).
    inv_bind Hj. inv_bind Hj.
    apply index_Ok in E as [_ E]. apply nth_error_In, Hg in E as [Hwf Hd].
    unfold Dims in Hd. injection Hd as Hrw Hcl.
    apply correlate_dims in Hj as [Hd Hl]. rewrite Hrw, Hcl in Hd, Hl.
    unfold wf_dense. unfold Dims in Hd. injection Hd as Hr' Hc'.
    rewrite Hr', Hc'. unfold Dims. rewrite Hr', Hc'. repeat split; auto; lia.
  - unfold len at 1. rewrite Hlen, length_zrange. unfold len. lia.
Qed.

Lemma mapM_index_In (A : Type) (s : list A) (order : list Z) (out : list A) :
  mapM (index s) order = Ok out -> Forall (fun a => In a s) out.
Proof.
  intros H. apply mapM_inv in H. rewrite Forall_forall. intros a Ha.
  destruct (Forall2_In_r _ _ _ _ H Ha) as (j & _ & Hj).
  apply index_Ok in Hj as [_ Hj]. eapply nth_error_In, Hj.
Qed.

Lemma receive_inv (r c : Z) (arrivals : list (Dense F)) :
  good r c arrivals ->
  forall partial progress partial' progress',
    match partial with Some q => wf_dense q /\ Dims q = (r, c) | None => True end ->
    receive partial progress arrivals = Ok (partial', progress') ->
    progress' = progress + len arrivals /\
    match partial' with
    | Some q => wf_dense q /\ Dims q = (r, c)
    | None => partial = None /\ arrivals = []
    end.
Proof.
  induction 1 as [|p rest [Hwp Hdp] Hrest IH]; intros partial progress partial' progress' Hq H;
    simpl in H.
  - injection H as <- <-. split; [unfold len; simpl; lia|].
    destruct partial; auto.
  - inv_bind H. apply IH in H.
    + destruct H as [-> H]. split; [unfold len; simpl length; lia|].
      destruct partial'; [exact H | destruct H; discriminate].
    + destruct partial as [q|].
      * destruct Hq as [Hwq Hdq]. destruct (Add_wf _ _ _ Hwq Hwp E) as [Hw Hd].
        split; [exact Hw | congruence].
      * injection E as <-. auto.
Qed.

Lemma outputPlane_inv (sched : Sched) (l : Z) (m : Model F) (planes : list (Dense F))
  (progress i : Z) (o : Dense F) (progress' : Z) (r c : Z) :
  2 <= r -> 2 <= c -> good r c planes ->
  outputPlane sched l m planes progress i = Ok (o, progress') ->
  (wf_dense o /\ Dims o = (r - 2, c - 2)) /\
  exists wgt, index (Weight m) i = Ok wgt /\
    progress' = progress + len (sched l i (Z.min (len planes) (len wgt))).
Proof.
  intros Hr Hc Hg H. unfold outputPlane in H.
  split_bind H as b Eb. split_bind H as wgt Ew. split_bind H as convs Ec.
  split_bind H as arrivals Ea. split_bind H as st Er.
  destruct st as [partial prog]. destruct partial as [partial|]; [|discriminate].
  split_bind H as o' Eo. injection H as <- <-.
  destruct (convolutions_inv _ _ _ _ _ Hr Hc Hg Ec) as [Hgc Hlc].
  assert (Hga : good (r - 2) (c - 2) arrivals).
  { apply mapM_index_In in Ea. unfold good in *. rewrite Forall_forall in *.
    intros a Ha. apply Hgc, Ea, Ha. }
  destruct (receive_inv _ _ _ Hga None progress _ _ I Er) as [-> [Hwp Hdp]].
  split.
  - apply broadcastMat_dims in Eo as [Hd Hl]. rewrite Hdp in Hd.
    unfold Dims in Hdp. injection Hdp as Hrp Hcp. rewrite Hrp, Hcp in Hl.
    split; [|exact Hd]. unfold Dims in Hd. injection Hd as Hro Hco.
    unfold wf_dense. rewrite Hro, Hco. repeat split; auto; lia.
  - exists wgt. split; [exact Ew|].
    apply mapM_length in Ea. unfold len. now rewrite Ea.
Qed.

(** The number of input planes output plane [i] of a layer consumes, and
    the number of results the coordinator receives for the planes [iter]. *)
Definition inputCount (planes : list (Dense F)) (m : Model F) (i : Z) : Z :=
  Z.min (len planes) (len (nth (Z.to_nat i) (Weight m) [])).

Definition received (sched : Sched) (l : Z) (planes : list (Dense F)) (m : Model F)
  (iter : list Z) : Z :=
  fold_right (fun i s => len (sched l i (inputCount planes m i)) + s) 0 iter.

Lemma outputPlanes_inv (sched : Sched) (l : Z) (m : Model F) (planes : list (Dense F))
  (r c : Z) :
  2 <= r -> 2 <= c -> good r c planes ->
  forall iter oPlanes progress out progress',
    good (r - 2) (c - 2) oPlanes ->
    outputPlanes sched l m planes oPlanes progress iter = Ok (out, progress') ->
    good (r - 2) (c - 2) out /\
    len out = len oPlanes + len iter /\
    progress' = progress + received sched l planes m iter.
Proof.
  intros Hr Hc Hg. induction iter as [|i iter IH];
    intros oPlanes progress out progress' Ho H; simpl in H.
  - injection H as <- <-. unfold len. simpl. repeat split; auto; lia.
  - split_bind H as st Eo. destruct st as [o prog].
    destruct (outputPlane_inv _ _ _ _ _ _ _ _ _ _ Hr Hc Hg Eo)
      as [Hgo (wgt & Ew & ->)].
    apply IH in H.
    + destruct H as (Hout & Hlen & ->). split; [exact Hout|]. split.
      * rewrite Hlen, len_app. unfold len. simpl length. lia.
      * simpl. unfold inputCount.
        apply index_Ok in Ew as [_ Ew].
        rewrite (nth_error_nth _ _ [] Ew). lia.
    + unfold good in *. apply Forall_app. split; [exact Ho|].
      constructor; [exact Hgo | constructor].
Qed.

Lemma layer_inv (sched : Sched) (l : Z) (m : Model F) (planes planes' : list (Dense F))
  (progress progress' r c : Z) :
  2 <= r -> 2 <= c -> good r c planes ->
  layer sched l m planes progress = Ok (planes', progress') ->
  good (r - 2) (c - 2) planes' /\
  len planes' = Z.min (len (Bias m)) (len (Weight m)) /\
  progress' = progress
              + received sched l planes m
                  (zrange 0 (Z.min (len (Bias m)) (len (Weight m)))) /\
  exists oPlanes,
    outputPlanes sched l m planes [] progress
      (zrange 0 (Z.min (len (Bias m)) (len (Weight m)))) = Ok (oPlanes, progress') /\
    planes' = map activate oPlanes.
Proof.
  intros Hr Hc Hg H. unfold layer in H.
  split_bind H as st Eo. destruct st as [oPlanes prog].
  split_bind H as acts Ea. injection H as <- <-.
  destruct (outputPlanes_inv _ _ _ _ _ _ Hr Hc Hg _ _ _ _ _ (Forall_nil _) Eo)
    as (Hgo & Hlen & Hprog).
  rewrite (mapM_leakyReLU _ _ _ Hgo) in Ea. injection Ea as <-.
  split; [|split; [|split]].
  - unfold good in *. rewrite Forall_map.
    eapply Forall_impl; [|exact Hgo]. intros v Hv. now apply activate_good.
  - unfold len in *. rewrite length_map, length_zrange in *. simpl in Hlen. lia.
  - exact Hprog.
  - exists oPlanes. auto.
Qed.

Lemma layers_inv (sched : Sched) (models : list (Model F)) :
  forall l planes progress planes' progress' r c,
    2 * len models <= r -> 2 * len models <= c -> good r c planes ->
    layers sched l models planes progress = Ok (planes', progress') ->
    good (r - 2 * len models) (c - 2 * len models) planes'.
Proof.
  induction models as [|m models IH];
    intros l planes progress planes' progress' r c Hr Hc Hg H; simpl in H.
  - injection H as <- <-.
    replace (r - 2 * len (@nil (Model F))) with r by (unfold len; simpl; lia).
    replace (c - 2 * len (@nil (Model F))) with c by (unfold len; simpl; lia).
    exact Hg.
  - assert (Hl : len (m :: models) = len models + 1) by (unfold len; simpl length; lia).
    rewrite Hl in *.
    split_bind H as st El. destruct st as [planes1 progress1].
    apply layer_inv with (r := r) (c := c) in El; [|unfold len in *; lia..|exact Hg].
    destruct El as (Hg1 & _).
    apply IH with (r := r - 2) (c := c - 2) in H; [|lia|lia|exact Hg1].
    replace (r - 2 * (len models + 1)) with (r - 2 - 2 * len models) by lia.
    now replace (c - 2 * (len models + 1)) with (c - 2 - 2 * len models) by lia.
Qed.

(** [clip] followed by the scaling of [broadcastVec]: one output element. *)
Definition rescaled (x : F) : F := mul (clip1 f0 f1 x) f255.

(** What [engine] returns when it returns: the planes after the last layer
    are one plane [p0] of the input's shape, and the vector is its clipped
    and rescaled backing slice. *)
Lemma engine_inv (sched : Sched) (models : list (Model F)) (m : Dense F) (vec : list F) :
  engine sched models m = Ok vec ->
  exists padded p0 progress,
    pad m (len models) = Ok padded /\
    layers sched 0 models [padded] 0 = Ok ([p0], progress) /\
    wf_dense p0 /\ Dims p0 = Dims m /\
    vec = map rescaled (Data p0).
Proof.
  intros H. unfold engine in H.
  split_bind H as padded Ep. split_bind H as st El. destruct st as [planes progress].
  destruct (Z.eqb_spec (len planes) 1) as [H1|]; simpl in H; [|discriminate].
  split_bind H as p0 E0. split_bind H as v Ec. injection H as <-.
  destruct planes as [|q [|q' planes]]; unfold len in H1; simpl in H1; try lia.
  unfold index in E0. simpl in E0. injection E0 as ->.
  pose proof (pad_dims _ _ _ Ep) as (Hd & Hl & Hr & Hc).
  assert (Hlen : 0 <= len models) by (unfold len; lia).
  assert (Hg : good (Rows m + len models * 2) (Cols m + len models * 2) [padded]).
  { constructor; [|constructor]. split; [|exact Hd].
    unfold Dims in Hd. injection Hd as Hr' Hc'.
    unfold wf_dense. rewrite Hr', Hc'. repeat split; auto; lia. }
  pose proof El as Hg'.
  apply layers_inv with (r := Rows m + len models * 2)
                        (c := Cols m + len models * 2) in Hg';
    [|lia|lia|exact Hg].
  apply Forall_inv in Hg' as [Hw0 Hd0].
  replace (Rows m + len models * 2 - 2 * len models) with (Rows m) in Hd0 by lia.
  replace (Cols m + len models * 2 - 2 * len models) with (Cols m) in Hd0 by lia.
  rewrite clip_ok in Ec by exact Hw0. injection Ec as <-.
  exists padded, p0, progress.
  split; [exact Ep|]. split; [exact El|]. split; [exact Hw0|].
  split; [exact Hd0|].
  unfold broadcastVec. rewrite map_map. reflexivity.
Qed.

End LayerFacts.

(** ** When the engine returns *)

Section Totality.

Context {F : Type} {SF : Scalar F}.

(** A layer the loops can run: it has an output plane, and every group of
    its weights has a kernel, all kernels being at least 3x3. *)
Definition wf_model (m : Model F) : bool :=
  (1 <=? Z.min (len (Bias m)) (len (Weight m))) &&
  forallb (fun wgt => (1 <=? len wgt) && forallb kernel3 wgt) (Weight m).

Lemma mapM_exists {A B : Type} (f : A -> outcome B) (l : list A) :
  (forall a, In a l -> exists b, f a = Ok b) -> exists bs, mapM f l = Ok bs.
Proof.
  induction l as [|a l IH]; intros Hf; simpl; [eauto|].
  destruct (Hf a (or_introl eq_refl)) as [b ->].
  destruct IH as [bs ->]; [intros; apply Hf; now right|].
  simpl. eauto.
Qed.

Lemma convolutions_ok (r c : Z) (planes : list (Dense F)) (wgt : list (list (list F))) :
  2 <= r -> 2 <= c -> good r c planes -> forallb kernel3 wgt = true ->
  exists convs, convolutions planes wgt = Ok convs.
Proof.
  intros Hr Hc Hg Hk. unfold convolutions. apply mapM_exists.
  intros j Hj. apply In_zrange in Hj.
  destruct (index_in_range planes j ltac:(lia)) as [plane Ep].
  destruct (index_in_range wgt j ltac:(lia)) as [kernel Ek].
  rewrite Ep, Ek. simpl.
  apply index_Ok in Ep as [_ Ep]. apply index_Ok in Ek as [_ Ek].
  unfold good in Hg. rewrite Forall_forall in Hg.
  destruct (Hg plane (nth_error_In _ _ Ep)) as [Hwf Hd].
  unfold Dims in Hd. injection Hd as Hr' Hc'.
  rewrite forallb_forall in Hk.
  rewrite correlate_ok; eauto using nth_error_In; lia.
Qed.

Lemma map_nth_zrange (A : Type) (s : list A) (d : A) :
  map (fun j => nth (Z.to_nat j) s d) (zrange 0 (len s)) = s.
Proof.
  apply list_eq_nth_error.
  - rewrite length_map, length_zrange. unfold len. lia.
  - intros k Hk. rewrite length_map, length_zrange in Hk.
    rewrite nth_error_map, nth_error_zrange by lia. simpl.
    rewrite Nat2Z.id. symmetry. apply nth_error_nth'. unfold len in Hk. lia.
Qed.

(** Under a schedule that is a permutation of the tasks, the coordinator
    receives every result once. *)
Lemma arrivals_ok (A : Type) (d : A) (convs : list A) (order : list Z) :
  Permutation order (zrange 0 (len convs)) ->
  mapM (index convs) order = Ok (map (fun j => nth (Z.to_nat j) convs d) order) /\
  Permutation (map (fun j => nth (Z.to_nat j) convs d) order) convs.
Proof.
  intros Hp. split.
  - apply mapM_ok. intros j Hj.
    apply (Permutation_in _ Hp), In_zrange in Hj. now apply index_nth.
  - eapply Permutation_trans; [apply Permutation_map, Hp|].
    rewrite map_nth_zrange. apply Permutation_refl.
Qed.

Lemma receive_ok (r c : Z) (arrivals : list (Dense F)) :
  good r c arrivals ->
  forall partial progress,
    match partial with Some q => wf_dense q /\ Dims q = (r, c) | None => True end ->
    exists partial', receive partial progress arrivals = Ok (partial', progress + len arrivals).
Proof.
  induction 1 as [|p rest [Hwp Hdp] Hrest IH]; intros partial progress Hq; simpl.
  - exists partial. unfold len. simpl. do 2 f_equal. lia.
  - replace (progress + len (p :: rest)) with (progress + 1 + len rest)
      by (unfold len; simpl length; lia).
    destruct partial as [q|]; simpl.
    + destruct Hq as [Hwq Hdq].
      assert (Ea := Add_same_dims q p ltac:(congruence)).
      rewrite Ea. simpl. apply IH.
      destruct (Add_wf _ _ _ Hwq Hwp Ea) as [Hw Hd]. split; [exact Hw | congruence].
    + apply IH. auto.
Qed.

Lemma wf_model_group (m : Model F) (i : Z) (wgt : list (list (list F))) :
  wf_model m = true -> index (Weight m) i = Ok wgt ->
  1 <= len wgt /\ forallb kernel3 wgt = true.
Proof.
  unfold wf_model. intros Hm Hw.
  apply andb_true_iff in Hm as [_ Hm]. rewrite forallb_forall in Hm.
  apply index_Ok in Hw as [_ Hw]. apply nth_error_In, Hm in Hw.
  apply andb_true_iff in Hw as [Hl Hk]. apply Z.leb_le in Hl. auto.
Qed.

Lemma outputPlane_ok (sched : Sched) (l : Z) (m : Model F) (planes : list (Dense F))
  (progress i r c : Z) :
  sched_ok sched -> wf_model m = true ->
  2 <= r -> 2 <= c -> good r c planes -> 1 <= len planes ->
  0 <= i < Z.min (len (Bias m)) (len (Weight m)) ->
  exists o progress', outputPlane sched l m planes progress i = Ok (o, progress').
Proof.
  intros Hs Hm Hr Hc Hg Hp Hi. unfold outputPlane.
  destruct (index_in_range (Bias m) i ltac:(lia)) as [b ->].
  destruct (index_in_range (Weight m) i ltac:(lia)) as [wgt Ew].
  rewrite Ew. simpl.
  destruct (wf_model_group _ _ _ Hm Ew) as [Hl Hk].
  destruct (convolutions_ok _ _ _ _ Hr Hc Hg Hk) as [convs Ec].
  rewrite Ec. simpl.
  destruct (convolutions_inv _ _ _ _ _ Hr Hc Hg Ec) as [Hgc Hlc].
  pose proof (Hs l i (Z.min (len planes) (len wgt))) as Hperm.
  rewrite <- Hlc in *.
  destruct (arrivals_ok _ (mkDense 0 0 []) convs _ Hperm) as [Ea Hpa].
  rewrite Ea. simpl.
  assert (Hga : good (r - 2) (c - 2)
                  (map (fun j => nth (Z.to_nat j) convs (mkDense 0 0 [])) (sched l i (len convs)))).
  { unfold good in *. rewrite Forall_forall in *. intros a Ha.
    apply Hgc. eapply Permutation_in; [exact Hpa | exact Ha]. }
  destruct (receive_ok _ _ _ Hga None progress I) as [partial Er].
  rewrite Er. simpl.
  destruct (receive_inv _ _ _ Hga None progress _ _ I Er) as [_ Hpart].
  destruct partial as [partial|].
  - destruct Hpart as [Hwp _]. rewrite broadcastMat_ok by exact Hwp. simpl. eauto.
  - destruct Hpart as [_ Hnil]. exfalso.
    apply (f_equal (@length _)) in Hnil. rewrite length_map in Hnil.
    apply Permutation_length in Hperm. rewrite length_zrange in Hperm.
    simpl in Hnil. lia.
Qed.

Lemma outputPlanes_ok (sched : Sched) (l : Z) (m : Model F) (planes : list (Dense F))
  (r c : Z) :
  sched_ok sched -> wf_model m = true ->
  2 <= r -> 2 <= c -> good r c planes -> 1 <= len planes ->
  forall iter oPlanes progress,
    (forall i, In i iter -> 0 <= i < Z.min (len (Bias m)) (len (Weight m))) ->
    exists out progress',
      outputPlanes sched l m planes oPlanes progress iter = Ok (out, progress').
Proof.
  intros Hs Hm Hr Hc Hg Hp. induction iter as [|i iter IH];
    intros oPlanes progress Hiter; simpl; [eauto|].
  destruct (outputPlane_ok sched l m planes progress i r c) as (o & progress1 & ->);
    auto. { apply Hiter. now left. }
  simpl. apply IH. intros; apply Hiter; now right.
Qed.

Lemma layer_ok (sched : Sched) (l : Z) (m : Model F) (planes : list (Dense F))
  (progress r c : Z) :
  sched_ok sched -> wf_model m = true ->
  2 <= r -> 2 <= c -> good r c planes -> 1 <= len planes ->
  exists planes' progress',
    layer sched l m planes progress = Ok (planes', progress') /\ 1 <= len planes'.
Proof.
  intros Hs Hm Hr Hc Hg Hp.
  destruct (outputPlanes_ok sched l m planes r c Hs Hm Hr Hc Hg Hp
              (zrange 0 (Z.min (len (Bias m)) (len (Weight m)))) [] progress)
    as (oPlanes & progress' & Eo).
  { intros i Hi. now apply In_zrange in Hi. }
  destruct (outputPlanes_inv _ _ _ _ _ _ Hr Hc Hg _ _ _ _ _ (Forall_nil _) Eo)
    as (Hgo & _ & _).
  assert (El : layer sched l m planes progress = Ok (map activate oPlanes, progress')).
  { unfold layer. rewrite Eo. simpl.
    rewrite (mapM_leakyReLU _ _ _ Hgo). reflexivity. }
  exists (map activate oPlanes), progress'. split; [exact El|].
  apply layer_inv with (r := r) (c := c) in El; auto.
  destruct El as (_ & -> & _).
  unfold wf_model in Hm. apply andb_true_iff in Hm as [Hm _].
  now apply Z.leb_le in Hm.
Qed.

Lemma layers_ok (sched : Sched) (models : list (Model F)) :
  sched_ok sched -> forallb wf_model models = true ->
  forall l planes progress r c,
    2 * len models <= r -> 2 * len models <= c -> good r c planes ->
    1 <= len planes ->
    exists planes' progress', layers sched l models planes progress = Ok (planes', progress').
Proof.
  intros Hs. induction models as [|m models IH];
    intros Hm l planes progress r c Hr Hc Hg Hp; simpl; [eauto|].
  simpl in Hm. apply andb_true_iff in Hm as [Hm Hms].
  assert (Hl : len (m :: models) = len models + 1) by (unfold len; simpl length; lia).
  rewrite Hl in *.
  assert (H0 : 0 <= len models) by (unfold len; lia).
  destruct (layer_ok sched l m planes progress r c) as (planes1 & progress1 & El & Hp1);
    auto; try lia.
  rewrite El. simpl.
  apply layer_inv with (r := r) (c := c) in El; auto; try lia.
  destruct El as (Hg1 & _).
  apply (IH Hms (l + 1) planes1 progress1 (r - 2) (c - 2)); auto; lia.
Qed.

(** The number of planes after the last layer. *)
Definition finalCount (models : list (Model F)) : Z :=
  match rev models with
  | [] => 1
  | m :: _ => Z.min (len (Bias m)) (len (Weight m))
  end.

Lemma layers_count (sched : Sched) (models : list (Model F)) :
  forall l planes progress planes' progress' r c,
    2 * len models <= r -> 2 * len models <= c -> good r c planes ->
    layers sched l models planes progress = Ok (planes', progress') ->
    len planes' = match rev models with
                  | [] => len planes
                  | m :: _ => Z.min (len (Bias m)) (len (Weight m))
                  end.
Proof.
  induction models as [|m models IH];
    intros l planes progress planes' progress' r c Hr Hc Hg H; simpl in H.
  - injection H as <- <-. reflexivity.
  - assert (Hl : len (m :: models) = len models + 1) by (unfold len; simpl length; lia).
    rewrite Hl in *.
    assert (H0 : 0 <= len models) by (unfold len; lia).
    split_bind H as st El. destruct st as [planes1 progress1].
    apply layer_inv with (r := r) (c := c) in El; auto; try lia.
    destruct El as (Hg1 & Hl1 & _).
    apply IH with (r := r - 2) (c := c - 2) in H; auto; try lia.
    rewrite H. simpl rev. destruct (rev models) as [|m' ms]; simpl; auto.
Qed.

End Totality.

(** ** The engine and the program *)

Section EngineFacts.

Context {F : Type} {SF : Scalar F}.

Lemma padded_good (m padded : Dense F) (p : Z) :
  0 <= p -> pad m p = Ok padded ->
  good (Rows m + p * 2) (Cols m + p * 2) [padded].
Proof.
  intros Hp E. destruct (pad_dims _ _ _ E) as (Hd & Hl & Hr & Hc).
  constructor; [|constructor]. split; [|exact Hd].
  unfold Dims in Hd. injection Hd as Hr' Hc'.
  unfold wf_dense. rewrite Hr', Hc'. repeat split; auto; lia.
Qed.

Lemma len_nonneg (A : Type) (l : list A) : 0 <= len l.
Proof. unfold len. lia. Qed.

Lemma len_firstn (A : Type) (l : list A) (k : Z) :
  0 <= k <= len l -> len (firstn (Z.to_nat k) l) = k.
Proof. unfold len. intros Hk. rewrite length_firstn. lia. Qed.

(** After [k] of the layers every plane has lost [2k] rows and columns of
    the padded input. *)
Lemma planes_after (sched : Sched) (models : list (Model F)) (m padded : Dense F)
  (k : Z) (planes : list (Dense F)) (progress : Z) :
  pad m (len models) = Ok padded -> 0 <= k <= len models ->
  layers sched 0 (firstn (Z.to_nat k) models) [padded] 0 = Ok (planes, progress) ->
  good (Rows m + 2 * (len models - k)) (Cols m + 2 * (len models - k)) planes.
Proof.
  intros Ep Hk El.
  pose proof (padded_good _ _ _ (len_nonneg _ models) Ep) as Hg.
  destruct (pad_dims _ _ _ Ep) as (_ & _ & Hr & Hc).
  apply layers_inv with (r := Rows m + len models * 2)
                        (c := Cols m + len models * 2) in El;
    [| rewrite len_firstn by lia; lia .. | exact Hg].
  rewrite len_firstn in El by lia.
  replace (Rows m + 2 * (len models - k))
    with (Rows m + len models * 2 - 2 * k) by lia.
  now replace (Cols m + 2 * (len models - k))
    with (Cols m + len models * 2 - 2 * k) by lia.
Qed.

Lemma final_planes (sched : Sched) (models : list (Model F)) (m padded : Dense F)
  (planes : list (Dense F)) (progress : Z) :
  pad m (len models) = Ok padded ->
  layers sched 0 models [padded] 0 = Ok (planes, progress) ->
  good (Rows m) (Cols m) planes.
Proof.
  intros Ep El.
  pose proof (planes_after sched models m padded (len models) planes progress Ep) as H.
  assert (Hf : firstn (Z.to_nat (len models)) models = models)
    by (unfold len; rewrite Nat2Z.id; apply firstn_all).
  rewrite Hf in H. specialize (H ltac:(unfold len; lia) El).
  replace (Rows m + 2 * (len models - len models)) with (Rows m) in H by lia.
  now replace (Cols m + 2 * (len models - len models)) with (Cols m) in H by lia.
Qed.

Lemma engine_exits (sched : Sched) (models : list (Model F)) (m padded : Dense F)
  (planes : list (Dense F)) (progress : Z) :
  pad m (len models) = Ok padded ->
  layers sched 0 models [padded] 0 = Ok (planes, progress) ->
  len planes <> 1 -> engine sched models m = Exit 1.
Proof.
  intros Ep El Hn. unfold engine. rewrite Ep. simpl. rewrite El. simpl.
  destruct (Z.eqb_spec (len planes) 1); [contradiction | reflexivity].
Qed.

Lemma engine_returns (sched : Sched) (models : list (Model F)) (m padded : Dense F)
  (planes : list (Dense F)) (progress : Z) :
  pad m (len models) = Ok padded ->
  layers sched 0 models [padded] 0 = Ok (planes, progress) ->
  len planes = 1 ->
  exists p0, planes = [p0] /\ wf_dense p0 /\ Dims p0 = Dims m /\
             engine sched models m = Ok (map rescaled (Data p0)).
Proof.
  intros Ep El H1.
  pose proof (final_planes _ _ _ _ _ _ Ep El) as Hg.
  destruct planes as [|p0 [|q planes]]; unfold len in H1; simpl in H1; try lia.
  apply Forall_inv in Hg as [Hw Hd].
  exists p0. split; [reflexivity|]. split; [exact Hw|]. split; [exact Hd|].
  unfold engine. rewrite Ep. simpl. rewrite El. simpl.
  unfold index. simpl. rewrite clip_ok by exact Hw. simpl.
  unfold broadcastVec. now rewrite map_map.
Qed.

Lemma engine_ok (sched : Sched) (models : list (Model F)) (m : Dense F) :
  sched_ok sched -> forallb wf_model models = true -> finalCount models = 1 ->
  wf_dense m -> 1 <= Cols m -> len models < Rows m ->
  exists vec, engine sched models m = Ok vec /\ len vec = Rows m * Cols m.
Proof.
  intros Hs Hm Hf Hwf Hc Hr.
  destruct (pad_ok m (len models) Hwf Hc) as (v & Ep & Hl);
    [pose proof (len_nonneg _ models); lia|].
  set (v0 := mkDense (Rows m + len models * 2) (Cols m + len models * 2) v) in *.
  pose proof (padded_good _ _ _ (len_nonneg _ models) Ep) as Hg.
  pose proof (len_nonneg _ models) as H0.
  destruct (layers_ok sched models Hs Hm 0 [v0] 0
              (Rows m + len models * 2) (Cols m + len models * 2))
    as (planes & progress & El); [lia | lia | exact Hg | reflexivity |].
  assert (H1 : len planes = 1).
  { rewrite (layers_count sched models 0 [v0] 0 planes progress
               (Rows m + len models * 2) (Cols m + len models * 2));
      [| lia | lia | exact Hg | exact El].
    unfold finalCount in Hf. destruct (rev models); [reflexivity | exact Hf]. }
  destruct (engine_returns _ _ _ _ _ _ Ep El H1) as (p0 & _ & Hw & Hd & E).
  exists (map rescaled (Data p0)). split; [exact E|].
  destruct Hw as (_ & _ & Hlen). unfold Dims in Hd. injection Hd as Hr' Hc'.
  unfold len in *. rewrite length_map. congruence.
Qed.

End EngineFacts.

(** * The claims of the specification *)

(** ** Sample inputs *)

(* a 3x3 matrix of distinct luminance values *)
Definition im3 : Dense float :=
  mkDense 3 3 [1; 2; 3; 4; 5; 6; 7; 8; 9]%float.

(* a kernel whose only weight is f[0][1]: the middle of its first row *)
Definition topMiddle : list (list float) :=
  [[0; 1; 0]; [0; 0; 0]; [0; 0; 0]]%float.

(* a matrix with fewer rows than a seven-layer network pads *)
Definition im2x8 : Dense float := mkDense 2 8 (repeat 1%float 16).

(** Edge replication as the specification words it: a padded cell takes the
    value of the nearest cell of the source (divided by 255). *)
Definition clamp (lo hi v : Z) : Z := Z.max lo (Z.min hi v).

Definition edgeReplicate {F : Type} {SF : Scalar F} (im : Dense F) (padding i j : Z) : F :=
  fdiv (get im (clamp 0 (Rows im - 1) (i - padding))
               (clamp 0 (Cols im - 1) (j - padding))) f255.

(* two floats that compare unequal, the first not a NaN, are different *)
Lemma float_neq (a b : float) :
  PrimFloat.eqb a a = true -> PrimFloat.eqb a b = false -> a <> b.
Proof. intros Ha E H. subst b. congruence. Qed.

(** ** C2: [correlate] *)

(** C2 (the code departs from the claim).  [correlate] returns a matrix of
    [rows - 2] by [cols - 2] cells, but a cell is not the cross-correlation
    sum: [calcConv] multiplies the weight [f[a][b]] by the input at row
    offset [b] and column offset [a], so the kernel is applied transposed.
    First for any scalars and any 3x3 input and kernel, then on [im3] with
    the kernel [topMiddle]: the code returns the input's left neighbour
    [(1, 0)], which is 4, where cross-correlation gives the upper neighbour
    [(0, 1)], which is 2. *)
Theorem correlate_transposes_kernel :
  (forall (F : Type) (SF : Scalar F)
          (a00 a01 a02 a10 a11 a12 a20 a21 a22 : F)
          (k00 k01 k02 k10 k11 k12 k20 k21 k22 : F),
     let im := mkDense 3 3 [a00; a01; a02; a10; a11; a12; a20; a21; a22] in
     let f := [[k00; k01; k02]; [k10; k11; k12]; [k20; k21; k22]] in
     let plus res a k := fadd res (fmul a k) in
     correlate im f
     = Ok (mkDense 1 1
             [plus (plus (plus (plus (plus (plus (plus (plus (plus f0
                a00 k00) a10 k01) a20 k02) a01 k10) a11 k11) a21 k12)
                a02 k20) a12 k21) a22 k22]) /\
     crossCorrelation im f 0 0
     = plus (plus (plus (plus (plus (plus (plus (plus (plus f0
                a00 k00) a01 k01) a02 k02) a10 k10) a11 k11) a12 k12)
                a20 k20) a21 k21) a22 k22) /\
  correlate im3 topMiddle = Ok (mkDense 1 1 [4%float]) /\
  crossCorrelation im3 topMiddle 0 0 = 2%float /\
  4%float <> 2%float.
Proof.
  split; [|split; [|split]].
  - intros F SF a00 a01 a02 a10 a11 a12 a20 a21 a22
           k00 k01 k02 k10 k11 k12 k20 k21 k22.
    split; reflexivity.
  - vm_compute. reflexivity.
  - vm_compute. reflexivity.
  - apply float_neq; reflexivity.
Qed.

(** ** C3: [pad] *)

(** C3 (the code departs from the claim).  With radius 1 on a 3x3 input the
    four corners of [pad]'s result replicate the source corners, but the
    top and bottom edges and the interior do not hold the nearest source
    values: the cell to the right of the top-left corner holds source cell
    [(1, 1)] where edge replication puts source cell [(0, 0)].  First the
    whole result for any scalars, then on [im3]; last, a matrix with fewer
    rows than the padding and more columns makes [pad] panic. *)
Theorem pad_misplaces_edges :
  (forall (F : Type) (SF : Scalar F) (a00 a01 a02 a10 a11 a12 a20 a21 a22 : F),
     let n x := fdiv x f255 in
     pad (mkDense 3 3 [a00; a01; a02; a10; a11; a12; a20; a21; a22]) 1
     = Ok (mkDense 5 5 [n a00; n a11; n a12; n a02; n a02;
                        n a00; n a11; n a12; n a02; n a02;
                        n a10; n a21; n a22; n a12; n a12;
                        n a20; n a21; n a22; n a22; n a22;
                        n a20; n a21; n a22; n a22; n a22])) /\
  (exists padded : Dense float,
     pad im3 1 = Ok padded /\
     get padded 0 0 = edgeReplicate im3 1 0 0 /\
     get padded 0 4 = edgeReplicate im3 1 0 4 /\
     get padded 4 0 = edgeReplicate im3 1 4 0 /\
     get padded 4 4 = edgeReplicate im3 1 4 4 /\
     get padded 0 1 = (5 / 255)%float /\
     edgeReplicate im3 1 0 1 = (1 / 255)%float /\
     get padded 0 1 <> edgeReplicate im3 1 0 1) /\
  pad im2x8 7 = Panic.
Proof.
  split; [|split].
  - intros F SF a00 a01 a02 a10 a11 a12 a20 a21 a22. reflexivity.
  - eexists. split; [vm_compute; reflexivity|].
    repeat (split; [vm_compute; reflexivity|]).
    apply float_neq; vm_compute; reflexivity.
  - vm_compute. reflexivity.
Qed.

(** ** C1: the shape invariant *)

(* a kernel whose only weight is its centre *)
Definition centre (w : float) : list (list float) :=
  [[0; 0; 0]; [0; w; 0]; [0; 0; 0]]%float.

(** A network of two layers: one plane to three, three planes to one. *)
Definition net2 : list (Model float) :=
  [ mkModel [[centre 1e16]; [centre 1]; [centre 1e16]] 3 3 3 [0; 0; 0]%float 1;
    mkModel [[centre 1; centre 1; centre (-1)]] 1 3 3 [0]%float 3 ].

(* a 3x3 luminance matrix, all white *)
Definition white3 : Dense float := mkDense 3 3 (repeat 255%float 9).

Lemma in_order_ok : sched_ok in_order.
Proof. intros l i fj. apply Permutation_refl. Qed.




(** ** C4: the plane counts of a layer *)

(* a layer with two biases and three groups of weights *)
Definition layer23 : Model float :=
  mkModel [[centre 1]; [centre 2]; [centre 3]] 3 3 3 [0; 0]%float 1.


Lemma received_in_order {F : Type} {SF : Scalar F} (sched : Sched) (l : Z)
  (planes : list (Dense F)) (m : Model F) (iter : list Z) :
  sched_ok sched ->
  received sched l planes m iter = fold_right Z.add 0 (map (inputCount planes m) iter).
Proof.
  intros Hs. induction iter as [|i iter IH]; simpl; [reflexivity|].
  rewrite IH. f_equal.
  pose proof (Permutation_length (Hs l i (inputCount planes m i))) as Hl.
  rewrite length_zrange in Hl. unfold len at 1. rewrite Hl.
  unfold inputCount, len. lia.
Qed.


Lemma im3_good : good 3 3 [im3].
Proof.
  constructor; [|constructor]. split; [|reflexivity].
  unfold wf_dense, len. simpl. lia.
Qed.


(** ** C5: the activation *)

(** C5.  The planes a layer leaves are its output planes with every element
    [x] replaced by [maximum(x, 0) + mul(minimum(x, 0), 0.1)], the leaky
    rectifier; in binary64 this maps -1, 0 and 2 to -0.1 (the double
    nearest to it), 0 and 2, and in exact arithmetic to -1/10, 0 and 2. *)
Theorem leaky_rectifier :
  (forall (F : Type) (SF : Scalar F) (sched : Sched) (l : Z) (m : Model F)
          (planes planes' : list (Dense F)) (progress progress' r c : Z),
     2 <= r -> 2 <= c -> good r c planes ->
     layer sched l m planes progress = Ok (planes', progress') ->
     exists oPlanes,
       outputPlanes sched l m planes [] progress
         (zrange 0 (Z.min (len (Bias m)) (len (Weight m)))) = Ok (oPlanes, progress') /\
       planes' = map (fun v => mkDense (Rows v) (Cols v)
                     (map (fun x => fadd (maximum x f0) (fmul (minimum x f0) f0_1))
                          (Data v))) oPlanes) /\
  (activated (-1)%float = (-0x1.999999999999ap-4)%float /\
   activated 0%float = 0%float /\
   activated 2%float = 2%float) /\
  (activated (-1)%Q = (-1 # 10)%Q /\
   activated 0%Q = 0%Q /\
   activated 2%Q = 2%Q).
Proof.
  split; [|split].
  - intros F SF sched l m planes planes' progress progress' r c Hr Hc Hg El.
    destruct (layer_inv _ _ _ _ _ _ _ _ _ Hr Hc Hg El)
      as (_ & _ & _ & oPlanes & Eo & ->).
    exists oPlanes. split; [exact Eo | reflexivity].
  - repeat split; vm_compute; reflexivity.
  - repeat split; vm_compute; reflexivity.
Qed.

Lemma leaky_rectifier_witness :
  exists oPlanes progress',
    outputPlanes in_order 0 layer23 [im3] [] 0 (zrange 0 2) = Ok (oPlanes, progress') /\
    layer in_order 0 layer23 [im3] 0
    = Ok (map (fun v => mkDense (Rows v) (Cols v) (map activated (Data v))) oPlanes,
          progress').
Proof.
  destruct (layer_ok in_order 0 layer23 [im3] 0 3 3 in_order_ok eq_refl
              ltac:(lia) ltac:(lia) im3_good ltac:(unfold len; simpl; lia))
    as (planes' & progress' & El & _).
  destruct (proj1 leaky_rectifier float binary64 in_order 0 layer23 [im3] planes'
              0 progress' 3 3 ltac:(lia) ltac:(lia) im3_good El)
    as (oPlanes & Eo & Ep).
  exists oPlanes, progress'. split; [exact Eo|].
  rewrite El, Ep. reflexivity.
Defined.

(** ** [Exec]: the colour raster *)

Section ProgramFacts.

Context {F : Type} {SF : Scalar F} {IL : ImageLib}.

(** The pixel [(x, y)] of an image in Y'CbCr, as [convertYCbCr] computes it. *)
Definition ycbcrAt (img : Image) (x y : Z) : YCbCr :=
  let '(r, g, b, _) := colorAt img x y in
  let '(Y, Cb, Cr) := RGBToYCbCr (uint8 r) (uint8 g) (uint8 b) in
  mkYCbCr Y Cb Cr.

Lemma convertYCbCr_len (img : Image) (c : list YCbCr) :
  convertYCbCr img = Ok c -> len c = MaxY img * MaxX img.
Proof.
  unfold convertYCbCr. intros H. split_bind H as cells Ec.
  now apply fill_len in H.
Qed.

Lemma convertYCbCr_ok (img : Image) :
  0 <= MaxX img -> 0 <= MaxY img ->
  convertYCbCr img
  = Ok (flat_map (fun y => map (fun x => ycbcrAt img x y) (zrange 0 (MaxX img)))
                 (zrange 0 (MaxY img))).
Proof.
  intros Hx Hy. unfold convertYCbCr.
  rewrite (for_cells_ok _ _ _ (fun y x => [ycbcrAt img x y])).
  - simpl. rewrite fill_exact.
    + f_equal; try (apply flat_map_ext_in; intros y _; apply flat_map_single).
    + rewrite len_cells by reflexivity. rewrite !len_zrange by lia. lia.
  - intros y x _ _. unfold ycbcrAt.
    destruct (colorAt img x y) as [[[r g] b] a].
    destruct (RGBToYCbCr (uint8 r) (uint8 g) (uint8 b)) as [[Y0 Cb0] Cr0].
    reflexivity.
Qed.

(** The pixel at index [y*width + x] of the raster is the source pixel
    [(x, y)]. *)
Lemma convertYCbCr_pixel (img : Image) (c : list YCbCr) (x y : Z) :
  convertYCbCr img = Ok c -> 0 <= x < MaxX img -> 0 <= y < MaxY img ->
  nth_error c (Z.to_nat (y * MaxX img + x)) = Some (ycbcrAt img x y).
Proof.
  intros H Hx Hy. rewrite convertYCbCr_ok in H by lia. injection H as <-.
  replace (Z.to_nat (y * MaxX img + x))
    with (Z.to_nat y * Z.to_nat (MaxX img) + Z.to_nat x)%nat by nia.
  rewrite (nth_error_flat_map_const _ _ (Z.to_nat (MaxX img))).
  - rewrite nth_error_zrange by lia.
    rewrite nth_error_map, nth_error_zrange by lia. cbn -[Z.add].
    do 2 f_equal; lia.
  - intros a _. rewrite length_map, length_zrange. f_equal. lia.
  - lia.
Qed.

(* the pixel [px] with its luminance replaced by [uint8(v)] *)
Definition withY (px : YCbCr) (v : F) : YCbCr :=
  mkYCbCr (to_uint8 v) (Cb px) (Cr px).

Lemma mergeY_inv (vec : list F) :
  forall c c', mergeY c vec = Ok c' ->
    (length vec <= length c)%nat /\
    c' = map (fun pv => withY (fst pv) (snd pv)) (combine c vec)
         ++ skipn (length vec) c.
Proof.
  induction vec as [|v vec IH]; intros c c' H; simpl in H.
  - injection H as <-. rewrite combine_nil. simpl. split; [lia | reflexivity].
  - destruct c as [|px c]; [discriminate|].
    split_bind H as rest Er. injection H as <-.
    destruct (IH _ _ Er) as [Hl ->]. simpl. split; [lia | reflexivity].
Qed.

Lemma mergeY_ok (vec : list F) :
  forall c, length vec = length c ->
    mergeY c vec = Ok (map (fun pv => withY (fst pv) (snd pv)) (combine c vec)).
Proof.
  induction vec as [|v vec IH]; intros [|px c] Hl; simpl in *; try discriminate;
    [reflexivity|].
  rewrite IH by lia. reflexivity.
Qed.

Lemma nth_error_combine (A B : Type) (l1 : list A) (l2 : list B) (i : nat) (a : A) (b : B) :
  nth_error l1 i = Some a -> nth_error l2 i = Some b ->
  nth_error (combine l1 l2) i = Some (a, b).
Proof.
  revert l2 i. induction l1 as [|x l1 IH]; intros [|y l2] [|i]; simpl;
    try discriminate; try congruence. apply IH.
Qed.

Lemma render_ok (width height : Z) (c : list YCbCr) :
  0 <= width -> 0 <= height -> len c = height * width ->
  render width height c = Ok (width, height, map rgbaOf c).
Proof.
  intros Hw Hh Hl. unfold render.
  rewrite (for_cells_ok _ _ _ (fun y x =>
     [rgbaOf (nth (Z.to_nat (y * width + x)) c (mkYCbCr 0 0 0))])).
  - simpl. now rewrite row_major_slice.
  - intros y x Hy Hx. apply In_zrange in Hy, Hx.
    rewrite (index_nth c _ (mkYCbCr 0 0 0)) by nia. reflexivity.
Qed.

(** The luminance matrix [Exec] builds from the raster. *)
Definition luminance (img : Image) (c : list YCbCr) : Dense F :=
  mkDense (MaxY img) (MaxX img) (extY c).

Lemma luminance_ok (img : Image) (c : list YCbCr) :
  convertYCbCr img = Ok c ->
  NewDense (MaxY img) (MaxX img) (extY c) = Ok (luminance img c).
Proof.
  intros H. apply NewDense_exact. apply convertYCbCr_len in H.
  unfold extY, len in *. now rewrite length_map.
Qed.

(** [Exec] once the engine has returned [vec]. *)
Lemma Exec_after_engine (sched : Sched) (w : Waifu2x F) (c : list YCbCr) (vec : list F) :
  convertYCbCr (src w) = Ok c ->
  engine sched (models w) (luminance (src w) c) = Ok vec ->
  let c' := map (fun pv => withY (fst pv) (snd pv)) (combine c vec) in
  length vec = length c /\
  merged sched w = Ok c' /\
  Exec sched w
  = Ok (mkWaifu2x (models w) (src w)
          (Some (MaxX (src w), MaxY (src w), map rgbaOf c'))).
Proof.
  intros Hc He c'.
  pose proof (convertYCbCr_len _ _ Hc) as Hlc.
  destruct (engine_inv _ _ _ _ He) as (padded & p0 & progress & Ep & _ & Hw & Hd & Hv).
  destruct (pad_dims _ _ _ Ep) as (_ & _ & Hr & Hcl). simpl in Hr, Hcl.
  assert (Hlv : length vec = length c).
  { destruct Hw as (_ & _ & Hl). unfold Dims in Hd. simpl in Hd. injection Hd as Hr' Hc'.
    subst vec. unfold len in *. rewrite length_map. lia. }
  assert (Hm : merged sched w = Ok c').
  { unfold merged. rewrite Hc. simpl. rewrite (luminance_ok _ _ Hc). simpl.
    rewrite He. simpl. now apply mergeY_ok. }
  split; [exact Hlv|]. split; [exact Hm|].
  unfold Exec. rewrite Hm. simpl.
  rewrite render_ok; [reflexivity | lia | lia |].
  unfold c', len in *. rewrite length_map, length_combine. lia.
Qed.

End ProgramFacts.

(** ** C6: the assertion on the number of planes *)

(** Go's colour conversions in integer arithmetic ([image/color]), with
    encoders that write nothing: a library to run [Exec] on. *)
Definition clamp8 (v : Z) : Z := Z.max 0 (Z.min 255 v).

#[global] Instance goColor : ImageLib := {
  RGBToYCbCr := fun r g b =>
    (Z.shiftr (19595 * r + 38470 * g + 7471 * b + 32768) 16,
     clamp8 (Z.shiftr (- 11056 * r - 21712 * g + 32768 * b + 8421376) 16),
     clamp8 (Z.shiftr (32768 * r - 27440 * g - 5328 * b + 8421376) 16));
  RGBA := (Z * Z * Z * Z)%type;
  rgbaOf := fun c =>
    let yy := Y c * 65793 in
    let cb := Cb c - 128 in
    let cr := Cr c - 128 in
    (clamp8 (Z.shiftr (yy + 91881 * cr) 16),
     clamp8 (Z.shiftr (yy - 22554 * cb - 46802 * cr) 16),
     clamp8 (Z.shiftr (yy + 116130 * cb) 16),
     255);
  png_Encode := fun _ => ([], None);
  jpeg_Encode := fun _ => ([], None)
}.

(* a white image of 3x3 pixels *)
Definition white : Image := mkImage 3 3 (fun _ _ => (65535, 65535, 65535, 65535)).

(* the first layer of [net2] alone leaves three planes *)
Definition net1 : list (Model float) := firstn 1 net2.

Definition w1 : Waifu2x float := mkWaifu2x net1 white None.
Definition w2 : Waifu2x float := mkWaifu2x net2 white None.

(** C6.  Once the layers are done, [Exec] (and the engine inside it) leaves
    the process with [os.Exit(1)] when the number of planes is not one, and
    then returns nothing; with exactly one plane it does not exit: the
    engine returns a vector of [height * width] elements and [Exec] returns
    with [w.dst] set. *)
Theorem plane_count_assert (F : Type) (SF : Scalar F) (IL : ImageLib) (sched : Sched)
  (w : Waifu2x F) (c : list YCbCr) (padded : Dense F) (planes : list (Dense F))
  (progress : Z) :
  convertYCbCr (src w) = Ok c ->
  pad (luminance (src w) c) (len (models w)) = Ok padded ->
  layers sched 0 (models w) [padded] 0 = Ok (planes, progress) ->
  (len planes <> 1 ->
     engine sched (models w) (luminance (src w) c) = Exit 1 /\
     Exec sched w = Exit 1) /\
  (len planes = 1 ->
     exists vec pix,
       engine sched (models w) (luminance (src w) c) = Ok vec /\
       len vec = MaxY (src w) * MaxX (src w) /\
       Exec sched w
       = Ok (mkWaifu2x (models w) (src w) (Some (MaxX (src w), MaxY (src w), pix)))).
Proof.
  intros Hc Ep El. split.
  - intros Hn.
    pose proof (engine_exits _ _ _ _ _ _ Ep El Hn) as He.
    split; [exact He|].
    unfold Exec, merged. rewrite Hc. simpl.
    rewrite (luminance_ok _ _ Hc). simpl. rewrite He. reflexivity.
  - intros H1.
    destruct (engine_returns _ _ _ _ _ _ Ep El H1) as (p0 & _ & _ & _ & He).
    destruct (Exec_after_engine sched w c _ Hc He) as (Hl & _ & Hx).
    eexists. eexists. split; [exact He|]. split; [|exact Hx].
    apply convertYCbCr_len in Hc. unfold len in *. lia.
Qed.

Lemma plane_count_assert_witness :
  Exec in_order w1 = Exit 1 /\
  exists pix, Exec in_order w2 = Ok (mkWaifu2x net2 white (Some (3, 3, pix))).
Proof.
  split.
  - refine (proj2 (proj1 (plane_count_assert float binary64 goColor in_order w1
                            _ _ _ _ _ _ _) _)).
    + vm_compute. reflexivity.
    + vm_compute. reflexivity.
    + vm_compute. reflexivity.
    + vm_compute. discriminate.
  - destruct (proj2 (plane_count_assert float binary64 goColor in_order w2
                       _ _ _ _
                       ltac:(vm_compute; reflexivity)
                       ltac:(vm_compute; reflexivity)
                       ltac:(vm_compute; reflexivity))
                eq_refl) as (vec & pix & _ & _ & Hx).
    exists pix. exact Hx.
Defined.

(** ** C7: clipping and rescaling *)





Definition imQ : Dense Q :=
  mkDense 3 3 (map inject_Z [0; 32; 64; 96; 128; 160; 192; 224; 255]).



(** ** C8: the order of arrival *)

(* the results of tasks 1 and 2 of a three-task plane arrive swapped *)
Definition swapped : Sched :=
  fun _ _ fj => if fj =? 3 then [0; 2; 1] else zrange 0 fj.

Lemma swapped_ok : sched_ok swapped.
Proof.
  intros l i fj. unfold swapped. destruct (Z.eqb_spec fj 3) as [->|].
  - change (zrange 0 3) with [0; 1; 2]. apply perm_skip, perm_swap.
  - apply Permutation_refl.
Qed.

Section OrderFacts.

Context {F : Type} {SF : Scalar F}.

Hypothesis fadd_comm : forall a b : F, fadd a b = fadd b a.
Hypothesis fadd_assoc : forall a b c : F, fadd (fadd a b) c = fadd a (fadd b c).

Lemma zipWith_comm (xs ys : list F) : zipWith fadd xs ys = zipWith fadd ys xs.
Proof.
  revert ys. induction xs as [|x xs IH]; intros [|y ys]; simpl; auto.
  now rewrite fadd_comm, IH.
Qed.

Lemma zipWith_swap (qs xs ys : list F) :
  zipWith fadd (zipWith fadd qs ys) xs = zipWith fadd (zipWith fadd qs xs) ys.
Proof.
  revert xs ys. induction qs as [|q qs IH]; intros [|x xs] [|y ys]; simpl; auto.
  rewrite IH. f_equal.
  now rewrite !fadd_assoc, (fadd_comm y x).
Qed.

Lemma Add_comm (a b : Dense F) : Add a b = Add b a.
Proof.
  unfold Add.
  destruct (Z.eqb_spec (Rows a) (Rows b)) as [Hr|Hr],
           (Z.eqb_spec (Cols a) (Cols b)) as [Hc|Hc]; simpl.
  - rewrite Hr, Hc, !Z.eqb_refl. simpl. now rewrite zipWith_comm.
  - rewrite Hr, Z.eqb_refl. simpl.
    destruct (Z.eqb_spec (Cols b) (Cols a)); [congruence | reflexivity].
  - destruct (Z.eqb_spec (Rows b) (Rows a)); [congruence | reflexivity].
  - destruct (Z.eqb_spec (Rows b) (Rows a)); [congruence | reflexivity].
Qed.

Lemma Add_swap (q x y : Dense F) :
  (do a <- Add q y; Add a x) = (do a <- Add q x; Add a y).
Proof.
  unfold Add.
  destruct (Z.eqb_spec (Rows q) (Rows y)) as [Hry|Hry],
           (Z.eqb_spec (Cols q) (Cols y)) as [Hcy|Hcy],
           (Z.eqb_spec (Rows q) (Rows x)) as [Hrx|Hrx],
           (Z.eqb_spec (Cols q) (Cols x)) as [Hcx|Hcx]; simpl;
    rewrite ?Hry, ?Hcy, ?Hrx, ?Hcx, ?Z.eqb_refl; simpl;
    try reflexivity;
    repeat match goal with
    | |- context [Z.eqb ?a ?b] => destruct (Z.eqb_spec a b); try congruence; simpl
    end; try reflexivity.
  now rewrite zipWith_swap.
Qed.

(** The receive loop computes the same sum whatever the order of arrival. *)
Lemma receive_perm (a1 a2 : list (Dense F)) :
  Permutation a1 a2 ->
  forall partial progress, receive partial progress a1 = receive partial progress a2.
Proof.
  induction 1 as [|p l l' _ IH|x y l|l l' l'' _ IH1 _ IH2]; intros partial progress.
  - reflexivity.
  - simpl. destruct partial as [q|]; simpl.
    + destruct (Add q p); simpl; auto.
    + apply IH.
  - simpl. destruct partial as [q|]; simpl.
    + transitivity (do p2 <- (do p1 <- Add q y; Add p1 x);
                    receive (Some p2) (progress + 1 + 1) l);
        [now rewrite bind_assoc|].
      rewrite Add_swap. now rewrite bind_assoc.
    + now rewrite (Add_comm y x).
  - now rewrite IH1, IH2.
Qed.

Lemma convolutions_len (planes convs : list (Dense F)) (wgt : list (list (list F))) :
  convolutions planes wgt = Ok convs -> len convs = Z.min (len planes) (len wgt).
Proof.
  unfold convolutions. intros H. apply mapM_length in H.
  unfold len in *. rewrite H, length_zrange. lia.
Qed.

Lemma outputPlane_sched (s1 s2 : Sched) (l : Z) (m : Model F) (planes : list (Dense F))
  (progress i : Z) :
  sched_ok s1 -> sched_ok s2 ->
  outputPlane s1 l m planes progress i = outputPlane s2 l m planes progress i.
Proof.
  intros H1 H2. unfold outputPlane.
  destruct (index (Bias m) i) as [b| |]; simpl; try reflexivity.
  destruct (index (Weight m) i) as [wgt| |]; simpl; try reflexivity.
  destruct (convolutions planes wgt) as [convs| |] eqn:Ec; simpl; try reflexivity.
  apply convolutions_len in Ec. rewrite <- Ec.
  pose proof (H1 l i (len convs)) as P1. pose proof (H2 l i (len convs)) as P2.
  destruct (arrivals_ok _ (mkDense 0 0 []) convs _ P1) as [-> Q1].
  destruct (arrivals_ok _ (mkDense 0 0 []) convs _ P2) as [-> Q2].
  simpl. rewrite (receive_perm _ _ (Permutation_trans Q1 (Permutation_sym Q2))).
  reflexivity.
Qed.

Lemma outputPlanes_sched (s1 s2 : Sched) (l : Z) (m : Model F) (planes : list (Dense F)) :
  sched_ok s1 -> sched_ok s2 ->
  forall iter oPlanes progress,
    outputPlanes s1 l m planes oPlanes progress iter
    = outputPlanes s2 l m planes oPlanes progress iter.
Proof.
  intros H1 H2. induction iter as [|i iter IH]; intros oPlanes progress; simpl;
    [reflexivity|].
  rewrite (outputPlane_sched s1 s2) by assumption.
  destruct (outputPlane s2 l m planes progress i) as [[o prog]| |]; simpl; auto.
Qed.

Lemma layers_sched (s1 s2 : Sched) (models : list (Model F)) :
  sched_ok s1 -> sched_ok s2 ->
  forall l planes progress,
    layers s1 l models planes progress = layers s2 l models planes progress.
Proof.
  intros H1 H2. induction models as [|m models IH]; intros l planes progress; simpl;
    [reflexivity|].
  unfold layer. rewrite (outputPlanes_sched s1 s2) by assumption.
  destruct (outputPlanes s2 l m planes [] progress _) as [[oPlanes prog]| |];
    simpl; try reflexivity.
  destruct (mapM leakyReLU oPlanes); simpl; auto.
Qed.

Lemma engine_sched (s1 s2 : Sched) (models : list (Model F)) (m : Dense F) :
  sched_ok s1 -> sched_ok s2 -> engine s1 models m = engine s2 models m.
Proof.
  intros H1 H2. unfold engine.
  destruct (pad m (len models)); simpl; try reflexivity.
  now rewrite (layers_sched s1 s2).
Qed.

End OrderFacts.

(* [centre] and [net2] over exact rationals *)
Definition centreQ (w : Q) : list (list Q) :=
  [[0; 0; 0]; [0; w; 0]; [0; 0; 0]]%Q.

Definition netQ3 : list (Model Q) :=
  [ mkModel [[centreQ (10 ^ 16)]; [centreQ 1]; [centreQ (10 ^ 16)]] 3 3 3 [0; 0; 0]%Q 1;
    mkModel [[centreQ 1; centreQ 1; centreQ (-1)]] 1 3 3 [0]%Q 3 ].

Definition wQ : Waifu2x Q := mkWaifu2x netQ3 white None.

Lemma exactQ_add_comm (a b : Q) : fadd a b = fadd b a.
Proof. cbn [fadd exactQ]. apply Qred_complete, Qplus_comm. Qed.

Lemma exactQ_add_assoc (a b c : Q) : fadd (fadd a b) c = fadd a (fadd b c).
Proof.
  cbn [fadd exactQ]. apply Qred_complete. rewrite !Qred_correct.
  symmetry. apply Qplus_assoc.
Qed.

(** C8 as stated fails in binary64.  On the network [net2] and a white 3x3
    input the three convolutions of the last plane are 1e16, 1 and -1e16
    everywhere: received in task order they sum to 0, received with the
    last two swapped they sum to 1, and the engine returns luminance 0 in
    one run and 255 in the other; [Exec] then renders different images. *)
Lemma arrival_order_changes_output :
  sched_ok in_order /\ sched_ok swapped /\
  engine in_order net2 white3 = Ok (repeat 0%float 9) /\
  engine swapped net2 white3 = Ok (repeat 255%float 9) /\
  engine in_order net2 white3 <> engine swapped net2 white3 /\
  Exec in_order w2 <> Exec swapped w2.
Proof.
  assert (E1 : engine in_order net2 white3 = Ok (repeat 0%float 9))
    by (vm_compute; reflexivity).
  assert (E2 : engine swapped net2 white3 = Ok (repeat 255%float 9))
    by (vm_compute; reflexivity).
  split; [exact in_order_ok|]. split; [exact swapped_ok|].
  split; [exact E1|]. split; [exact E2|]. split.
  - rewrite E1, E2. intros H.
    apply (f_equal (fun o => match o with Ok (x :: _) => x | _ => 0%float end)) in H.
    revert H. simpl. apply float_neq; reflexivity.
  - intros H. vm_compute in H. discriminate H.
Qed.

(** C8, amended.  The engine has no other access to the degree of
    parallelism than the order in which results arrive.  When the addition
    of scalars is commutative and associative, as in exact arithmetic, any
    two runs of the engine, and of [Exec], on the same network and input
    give the same outcome, whatever the orders of arrival. *)
Theorem order_independent_exact (F : Type) (SF : Scalar F) (IL : ImageLib)
  (s1 s2 : Sched) (w : Waifu2x F) :
  (forall a b : F, fadd a b = fadd b a) ->
  (forall a b c : F, fadd (fadd a b) c = fadd a (fadd b c)) ->
  sched_ok s1 -> sched_ok s2 ->
  (forall m, engine s1 (models w) m = engine s2 (models w) m) /\
  Exec s1 w = Exec s2 w.
Proof.
  intros Hc Ha H1 H2.
  assert (He : forall m, engine s1 (models w) m = engine s2 (models w) m)
    by (intros m; now apply engine_sched).
  split; [exact He|].
  unfold Exec, merged.
  destruct (convertYCbCr (src w)) as [c| |]; simpl; try reflexivity.
  destruct (NewDense (MaxY (src w)) (MaxX (src w)) (extY c)) as [m| |]; simpl;
    try reflexivity.
  now rewrite He.
Qed.

Lemma order_independent_exact_witness :
  engine in_order netQ3 imQ = engine swapped netQ3 imQ /\
  Exec in_order wQ = Exec swapped wQ.
Proof.
  destruct (order_independent_exact Q exactQ goColor in_order swapped wQ
              exactQ_add_comm exactQ_add_assoc in_order_ok swapped_ok) as [He Hx].
  split; [apply (He imQ) | exact Hx].
Defined.

(** ** C9: the merge of the luminance into the colour raster *)

Lemma map_combine_l (A B C : Type) (h : A -> C) (l1 : list A) (l2 : list B) :
  length l2 = length l1 -> map (fun p => h (fst p)) (combine l1 l2) = map h l1.
Proof.
  revert l2. induction l1 as [|a l1 IH]; intros [|b l2] Hl; simpl in *;
    try discriminate; [reflexivity|].
  f_equal. apply IH. lia.
Qed.

Lemma map_combine_r (A B C : Type) (h : B -> C) (l1 : list A) (l2 : list B) :
  length l2 = length l1 -> map (fun p => h (snd p)) (combine l1 l2) = map h l2.
Proof.
  revert l2. induction l1 as [|a l1 IH]; intros [|b l2] Hl; simpl in *;
    try discriminate; [reflexivity|].
  f_equal. apply IH. lia.
Qed.

(** C9.  When [Exec] merges the engine's vector [vec] into the raster [c]
    of the source image, the merged raster [c'] has the pixels of [c] with
    their Cb and Cr components unchanged and their Y component replaced by
    [uint8] of the element of [vec] at the same index: the pixel at
    [y*width + x] keeps the chroma that [color.RGBToYCbCr] gives the source
    pixel [(x, y)].  [w.dst] is [c'] rendered pixel by pixel. *)
Theorem chroma_untouched (F : Type) (SF : Scalar F) (IL : ImageLib) (sched : Sched)
  (w : Waifu2x F) (c c' : list YCbCr) :
  convertYCbCr (src w) = Ok c -> merged sched w = Ok c' ->
  exists vec,
    engine sched (models w) (luminance (src w) c) = Ok vec /\
    length vec = length c /\ length c' = length c /\
    map Cb c' = map Cb c /\ map Cr c' = map Cr c /\
    map Y c' = map to_uint8 vec /\
    (forall x y, 0 <= x < MaxX (src w) -> 0 <= y < MaxY (src w) ->
       exists v,
         nth_error vec (Z.to_nat (y * MaxX (src w) + x)) = Some v /\
         nth_error c' (Z.to_nat (y * MaxX (src w) + x))
         = Some (mkYCbCr (to_uint8 v) (Cb (ycbcrAt (src w) x y))
                                      (Cr (ycbcrAt (src w) x y)))) /\
    Exec sched w
    = Ok (mkWaifu2x (models w) (src w)
            (Some (MaxX (src w), MaxY (src w), map rgbaOf c'))).
Proof.
  intros Hc Hm.
  assert (He : exists vec, engine sched (models w) (luminance (src w) c) = Ok vec).
  { unfold merged in Hm. rewrite Hc in Hm. simpl in Hm.
    rewrite (luminance_ok _ _ Hc) in Hm. simpl in Hm.
    split_bind Hm as vec Ev. eauto. }
  destruct He as [vec He]. exists vec.
  destruct (Exec_after_engine sched w c vec Hc He) as (Hl & Hm' & Hx).
  rewrite Hm in Hm'. injection Hm' as ->.
  split; [exact He|]. split; [exact Hl|].
  split; [now rewrite length_map, length_combine, Hl, Nat.min_id|].
  split; [rewrite map_map; now apply (map_combine_l _ _ _ Cb)|].
  split; [rewrite map_map; now apply (map_combine_l _ _ _ Cr)|].
  split; [rewrite map_map; now apply (map_combine_r _ _ _ to_uint8)|].
  split; [|exact Hx].
  intros x y Hx' Hy'.
  pose proof (convertYCbCr_pixel _ _ x y Hc Hx' Hy') as Hpx.
  assert (Hi : (Z.to_nat (y * MaxX (src w) + x) < length vec)%nat).
  { rewrite Hl. apply nth_error_Some. rewrite Hpx. discriminate. }
  destruct (nth_error vec (Z.to_nat (y * MaxX (src w) + x))) as [v|] eqn:Ev;
    [|apply nth_error_None in Ev; lia].
  exists v. split; [reflexivity|].
  rewrite nth_error_map, (nth_error_combine _ _ _ _ _ _ _ Hpx Ev). reflexivity.
Qed.

Lemma chroma_untouched_witness :
  exists c c', convertYCbCr white = Ok c /\ merged in_order w2 = Ok c' /\
               map Cb c' = map Cb c /\ map Cr c' = map Cr c.
Proof.
  eexists. eexists.
  split; [vm_compute; reflexivity|]. split; [vm_compute; reflexivity|].
  destruct (chroma_untouched float binary64 goColor in_order w2 _ _
              ltac:(vm_compute; reflexivity) ltac:(vm_compute; reflexivity))
    as (vec & _ & _ & _ & Hcb & Hcr & _).
  split; [exact Hcb | exact Hcr].
Defined.

(** ** C10: [SaveImage] on an extension it does not know *)

(* no file yet; every name but the empty one can be created *)
Definition fs0 : FileSystem := mkFS (fun _ => None) (fun _ => true).

(* a file system that refuses every creation *)
Definition fsRO : FileSystem := mkFS (fun _ => None) (fun _ => false).

(** C10 as stated fails: [SaveImage] returns the error of [os.Create] when
    the file cannot be created, whatever the extension, and then creates
    nothing.  The empty name has no extension and never opens; neither does
    [out/img.bmp] where the system refuses the creation. *)
Lemma SaveImage_reports_create_error :
  filepath_Ext "" = ""%string /\
  SaveImage w2 fs0 "" = (fs0, Some (PathError "open" "")) /\
  filepath_Ext "out/img.bmp" = ".bmp"%string /\
  SaveImage w2 fsRO "out/img.bmp" = (fsRO, Some (PathError "open" "out/img.bmp")) /\
  file (fst (SaveImage w2 fsRO "out/img.bmp")) "out/img.bmp" = None.
Proof.
  repeat split; vm_compute; reflexivity.
Qed.

(** C10, amended.  For a file name whose extension is none of [.png],
    [.jpeg] and [.jpg]: when [os.Create] succeeds, [SaveImage] leaves the
    file created or truncated and empty, touches no other file and returns
    nil; when [os.Create] fails, [SaveImage] returns its error and the
    files are as before. *)
Theorem SaveImage_unknown_extension (F : Type) (SF : Scalar F) (IL : ImageLib)
  (w : Waifu2x F) (fs : FileSystem) (name : string) :
  filepath_Ext name <> ".png"%string ->
  filepath_Ext name <> ".jpeg"%string ->
  filepath_Ext name <> ".jpg"%string ->
  (forall fs1, os_Create fs name = (fs1, None) ->
     SaveImage w fs name = (fs1, None) /\
     file fs1 name = Some [] /\
     (forall n, n <> name -> file fs1 n = file fs n)) /\
  (forall fs1 e, os_Create fs name = (fs1, Some e) ->
     SaveImage w fs name = (fs, Some e)).
Proof.
  intros Hpng Hjpeg Hjpg.
  apply String.eqb_neq in Hpng, Hjpeg, Hjpg.
  split.
  - intros fs1 Hc. unfold SaveImage. rewrite Hc, Hpng, Hjpeg, Hjpg. simpl.
    split; [reflexivity|].
    unfold os_Create in Hc.
    destruct ((name =? "")%string || negb (creatable fs name)); [discriminate|].
    injection Hc as <-. simpl. split.
    + now rewrite String.eqb_refl.
    + intros n Hn. apply String.eqb_neq in Hn. now rewrite Hn.
  - intros fs1 e Hc. unfold SaveImage. rewrite Hc. reflexivity.
Qed.

Lemma SaveImage_unknown_extension_witness :
  snd (SaveImage w2 fs0 "out.bmp") = None /\
  file (fst (SaveImage w2 fs0 "out.bmp")) "out.bmp" = Some [].
Proof.
  destruct (SaveImage_unknown_extension float binary64 goColor w2 fs0 "out.bmp")
    as [H _].
  - vm_compute. discriminate.
  - vm_compute. discriminate.
  - vm_compute. discriminate.
  - destruct (H _ eq_refl) as (-> & Hf & _). split; [reflexivity | exact Hf].
Defined.

(** * Further properties of the code *)

(** ** Panics and exits *)

(** A computation that does not leave the process through [os.Exit]. *)
Definition no_exit {A : Type} (o : outcome A) : Prop :=
  forall code, o <> Exit code.

Lemma no_exit_Ok {A : Type} (a : A) : no_exit (Ok a).
Proof. intros code. discriminate. Qed.

Lemma no_exit_Panic {A : Type} : no_exit (@Panic A).
Proof. intros code. discriminate. Qed.

Lemma no_exit_bind {A B : Type} (m : outcome A) (k : A -> outcome B) :
  no_exit m -> (forall a, m = Ok a -> no_exit (k a)) -> no_exit (bind m k).
Proof.
  intros Hm Hk. destruct m as [a| |code]; simpl.
  - now apply Hk.
  - apply no_exit_Panic.
  - now destruct (Hm code).
Qed.

Lemma no_exit_mapM {A B : Type} (f : A -> outcome B) (l : list A) :
  (forall a, In a l -> no_exit (f a)) -> no_exit (mapM f l).
Proof.
  induction l as [|a l IH]; intros Hf; simpl; [apply no_exit_Ok|].
  apply no_exit_bind; [apply Hf; now left|]. intros b _.
  apply no_exit_bind; [apply IH; intros; apply Hf; now right|].
  intros bs _. apply no_exit_Ok.
Qed.

Lemma no_exit_for_cells {B : Type} (rs cs : list Z) (body : Z -> Z -> outcome (list B)) :
  (forall i j, In i rs -> In j cs -> no_exit (body i j)) ->
  no_exit (for_cells rs cs body).
Proof.
  intros Hb. unfold for_cells.
  apply no_exit_bind; [|intros; apply no_exit_Ok].
  apply no_exit_mapM. intros i Hi.
  apply no_exit_bind; [|intros; apply no_exit_Ok].
  apply no_exit_mapM. intros j Hj. now apply Hb.
Qed.

Lemma no_exit_index {A : Type} (s : list A) (i : Z) : no_exit (index s i).
Proof.
  unfold index. destruct (i <? 0); [apply no_exit_Panic|].
  destruct (nth_error s (Z.to_nat i)); [apply no_exit_Ok | apply no_exit_Panic].
Qed.

Lemma no_exit_fill {A : Type} (zero : A) (n : Z) (cells : list A) :
  no_exit (fill zero n cells).
Proof.
  unfold fill. destruct (n <? 0); [apply no_exit_Panic|].
  destruct (len cells <=? n); [apply no_exit_Ok | apply no_exit_Panic].
Qed.

(** A computation that neither returns nor exits panics. *)
Lemma panics {A : Type} (o : outcome A) :
  no_exit o -> (forall a, o <> Ok a) -> o = Panic.
Proof.
  intros He Ho. destruct o as [a| |code]; [now destruct (Ho a) | reflexivity |].
  now destruct (He code).
Qed.

Lemma mapM_Panic {A B : Type} (f : A -> outcome B) (l : list A) (a : A) :
  (forall x, In x l -> no_exit (f x)) -> In a l -> f a = Panic -> mapM f l = Panic.
Proof.
  intros Hn Ha Hf. apply panics; [now apply no_exit_mapM|].
  intros bs H. apply mapM_inv in H.
  assert (Hex : exists b, f a = Ok b).
  { clear Hn. induction H as [|x y l l' Hxy _ IH]; [contradiction|].
    destruct Ha as [->|Ha]; eauto. }
  destruct Hex as [b Hb]. congruence.
Qed.

Lemma for_cells_Panic {B : Type} (rs cs : list Z) (body : Z -> Z -> outcome (list B))
  (i j : Z) :
  (forall i j, In i rs -> In j cs -> no_exit (body i j)) ->
  In i rs -> In j cs -> body i j = Panic -> for_cells rs cs body = Panic.
Proof.
  intros Hn Hi Hj Hb. unfold for_cells.
  rewrite (mapM_Panic _ rs i); [reflexivity | | exact Hi |].
  - intros x Hx. apply no_exit_bind; [|intros; apply no_exit_Ok].
    apply no_exit_mapM. intros y Hy. now apply Hn.
  - rewrite (mapM_Panic _ cs j); [reflexivity | | exact Hj | exact Hb].
    intros y Hy. now apply Hn.
Qed.

Section ExitFacts.

Context {F : Type} {SF : Scalar F}.

Lemma no_exit_At (d : Dense F) (i j : Z) : no_exit (At d i j).
Proof.
  unfold At. destruct (_ && _); [apply no_exit_index | apply no_exit_Panic].
Qed.

Lemma no_exit_NewDense (r c : Z) (vec : list F) : no_exit (NewDense r c vec).
Proof.
  unfold NewDense. destruct (_ =? _); [apply no_exit_Ok | apply no_exit_Panic].
Qed.

Lemma no_exit_Add (a b : Dense F) : no_exit (Add a b).
Proof.
  unfold Add. destruct (_ && _); [apply no_exit_Ok | apply no_exit_Panic].
Qed.

Lemma no_exit_kat (f : list (list F)) (a b : Z) : no_exit (kat f a b).
Proof.
  unfold kat. apply no_exit_bind; [apply no_exit_index|].
  intros row _. apply no_exit_index.
Qed.

Lemma no_exit_acc (im : Dense F) (f : list (list F)) (res : F) (i j a b : Z) :
  no_exit (acc im f res i j a b).
Proof.
  unfold acc. apply no_exit_bind; [apply no_exit_At|]. intros v _.
  apply no_exit_bind; [apply no_exit_kat|]. intros k _. apply no_exit_Ok.
Qed.

Lemma no_exit_calcConv (x y : Z) (im : Dense F) (f : list (list F)) :
  no_exit (calcConv x y im f).
Proof.
  unfold calcConv.
  repeat (apply no_exit_bind; [apply no_exit_acc | intros ? _]).
  apply no_exit_Ok.
Qed.

Lemma no_exit_correlate (im : Dense F) (f : list (list F)) : no_exit (correlate im f).
Proof.
  unfold correlate, Dims.
  apply no_exit_bind.
  - apply no_exit_for_cells. intros i j _ _.
    destruct (_ || _); [apply no_exit_Ok|].
    apply no_exit_bind; [apply no_exit_calcConv | intros; apply no_exit_Ok].
  - intros cells _. apply no_exit_bind; [apply no_exit_fill|].
    intros vec _. apply no_exit_NewDense.
Qed.

Lemma no_exit_broadcastMat (d : Dense F) (n : F) (f : F -> F -> F) :
  no_exit (broadcastMat d n f).
Proof.
  unfold broadcastMat, Dims.
  apply no_exit_bind.
  - apply no_exit_for_cells. intros i j _ _.
    apply no_exit_bind; [apply no_exit_At | intros; apply no_exit_Ok].
  - intros cells _. apply no_exit_bind; [apply no_exit_fill|].
    intros vec _. apply no_exit_NewDense.
Qed.

Lemma no_exit_clip (d : Dense F) (start end_ : F) : no_exit (clip d start end_).
Proof.
  unfold clip, Dims.
  apply no_exit_bind; [|intros; apply no_exit_fill].
  apply no_exit_for_cells. intros i j _ _.
  apply no_exit_bind; [apply no_exit_At | intros; apply no_exit_Ok].
Qed.

Lemma no_exit_pad (im : Dense F) (padding : Z) : no_exit (pad im padding).
Proof.
  unfold pad, Dims.
  do 4 (apply no_exit_bind; [apply no_exit_At | intros ? _]).
  do 3 (apply no_exit_bind;
        [ apply no_exit_for_cells; intros i j _ _;
          repeat match goal with
          | |- no_exit (if ?b then _ else _) => destruct b
          | |- no_exit (bind _ _) => apply no_exit_bind; [apply no_exit_At | intros ? _]
          | |- no_exit (Ok _) => apply no_exit_Ok
          end
        | intros ? _ ]).
  apply no_exit_bind; [apply no_exit_fill|]. intros vec _. apply no_exit_NewDense.
Qed.

Lemma no_exit_receive (arrivals : list (Dense F)) :
  forall partial progress, no_exit (receive partial progress arrivals).
Proof.
  induction arrivals as [|p rest IH]; intros partial progress; simpl;
    [apply no_exit_Ok|].
  apply no_exit_bind; [|intros; apply IH].
  destruct partial; [apply no_exit_Add | apply no_exit_Ok].
Qed.

Lemma no_exit_convolutions (planes : list (Dense F)) (wgt : list (list (list F))) :
  no_exit (convolutions planes wgt).
Proof.
  unfold convolutions. apply no_exit_mapM. intros j _.
  apply no_exit_bind; [apply no_exit_index | intros ? _].
  apply no_exit_bind; [apply no_exit_index | intros ? _].
  apply no_exit_correlate.
Qed.

Lemma no_exit_outputPlane (sched : Sched) (l : Z) (m : Model F) (planes : list (Dense F))
  (progress i : Z) : no_exit (outputPlane sched l m planes progress i).
Proof.
  unfold outputPlane.
  apply no_exit_bind; [apply no_exit_index | intros b _].
  apply no_exit_bind; [apply no_exit_index | intros wgt _].
  apply no_exit_bind; [apply no_exit_convolutions | intros convs _].
  apply no_exit_bind; [apply no_exit_mapM; intros; apply no_exit_index | intros arr _].
  apply no_exit_bind; [apply no_exit_receive | intros [partial prog] _].
  destruct partial; [|apply no_exit_Panic].
  apply no_exit_bind; [apply no_exit_broadcastMat | intros; apply no_exit_Ok].
Qed.

Lemma no_exit_outputPlanes (sched : Sched) (l : Z) (m : Model F) (planes : list (Dense F))
  (iter : list Z) :
  forall oPlanes progress, no_exit (outputPlanes sched l m planes oPlanes progress iter).
Proof.
  induction iter as [|i iter IH]; intros oPlanes progress; simpl; [apply no_exit_Ok|].
  apply no_exit_bind; [apply no_exit_outputPlane | intros [o prog] _]. apply IH.
Qed.

Lemma no_exit_leakyReLU (v : Dense F) : no_exit (leakyReLU v).
Proof.
  unfold leakyReLU.
  do 3 (apply no_exit_bind; [apply no_exit_broadcastMat | intros ? _]).
  apply no_exit_Add.
Qed.

Lemma no_exit_layer (sched : Sched) (l : Z) (m : Model F) (planes : list (Dense F))
  (progress : Z) : no_exit (layer sched l m planes progress).
Proof.
  unfold layer.
  apply no_exit_bind; [apply no_exit_outputPlanes | intros [oPlanes prog] _].
  apply no_exit_bind; [|intros; apply no_exit_Ok].
  apply no_exit_mapM. intros; apply no_exit_leakyReLU.
Qed.

Lemma no_exit_layers (sched : Sched) (models : list (Model F)) :
  forall l planes progress, no_exit (layers sched l models planes progress).
Proof.
  induction models as [|m models IH]; intros l planes progress; simpl;
    [apply no_exit_Ok|].
  apply no_exit_bind; [apply no_exit_layer | intros [planes' prog] _]. apply IH.
Qed.

End ExitFacts.

(** ** When [calcConv] and [correlate] return *)

Section CorrelateEdges.

Context {F : Type} {SF : Scalar F}.

Lemma kat_Ok_len (f : list (list F)) (a b : Z) (k : F) :
  kat f a b = Ok k -> a < len f /\ b < len (nth (Z.to_nat a) f []).
Proof.
  unfold kat. intros H. split_bind H as row Er.
  apply index_Ok in Er as [Ha Er]. apply index_Ok in H as [Hb H].
  rewrite (nth_error_nth _ _ [] Er).
  assert (Hr : nth_error f (Z.to_nat a) <> None) by congruence.
  assert (Hk : nth_error row (Z.to_nat b) <> None) by congruence.
  apply nth_error_Some in Hr, Hk. unfold len. lia.
Qed.

Lemma kernel3_from_reads (f : list (list F)) (k0 k1 k2 : F) :
  kat f 0 2 = Ok k0 -> kat f 1 2 = Ok k1 -> kat f 2 2 = Ok k2 -> kernel3 f = true.
Proof.
  intros H0 H1 H2.
  apply kat_Ok_len in H0 as [_ H0], H1 as [_ H1], H2 as [H2 H2'].
  unfold len in *.
  destruct f as [|r0 [|r1 [|r2 rest]]]; simpl in H2; try lia.
  unfold kernel3, len. simpl in *.
  apply andb_true_iff. split; [apply Z.leb_le; lia|].
  rewrite !andb_true_iff. repeat split; apply Z.leb_le; lia.
Qed.

Lemma acc_Ok (im : Dense F) (f : list (list F)) (res v : F) (i j a b : Z) :
  acc im f res i j a b = Ok v ->
  (0 <= i < Rows im /\ 0 <= j < Cols im) /\ exists k, kat f a b = Ok k.
Proof.
  unfold acc. intros H. split_bind H as x Ex. split_bind H as k Ek.
  split; [eapply At_Ok_range, Ex | eauto].
Qed.

Lemma calcConv_Ok_inv (im : Dense F) (f : list (list F)) (x y : Z) (v : F) :
  calcConv x y im f = Ok v ->
  1 <= x <= Rows im - 2 /\ 1 <= y <= Cols im - 2 /\ kernel3 f = true.
Proof.
  intros H. unfold calcConv in H.
  split_bind H as r1 E1. split_bind H as r2 E2. split_bind H as r3 E3.
  split_bind H as r4 E4. split_bind H as r5 E5. split_bind H as r6 E6.
  split_bind H as r7 E7. split_bind H as r8 E8. split_bind H as r9 E9.
  apply acc_Ok in E1 as [R1 _], E3 as [R3 [k3 K3]], E6 as [_ [k6 K6]],
    E9 as [R9 [k9 K9]].
  split; [lia|]. split; [lia|].
  eapply kernel3_from_reads; eassumption.
Qed.

(** X2.  [calcConv] returns exactly on the cells that have their eight
    neighbours, with a kernel that has its nine weights; on any other cell,
    or with a smaller kernel, it panics. *)
Theorem calcConv_returns_iff (im : Dense F) (f : list (list F)) (x y : Z) :
  wf_dense im ->
  ((exists v, calcConv x y im f = Ok v) <->
   (1 <= x <= Rows im - 2 /\ 1 <= y <= Cols im - 2 /\ kernel3 f = true)) /\
  (calcConv x y im f = Panic <->
   ~ (1 <= x <= Rows im - 2 /\ 1 <= y <= Cols im - 2 /\ kernel3 f = true)).
Proof.
  intros Hwf.
  assert (Hiff : (exists v, calcConv x y im f = Ok v) <->
                 (1 <= x <= Rows im - 2 /\ 1 <= y <= Cols im - 2 /\ kernel3 f = true)).
  { split.
    - intros [v H]. eapply calcConv_Ok_inv, H.
    - intros (Hx & Hy & Hk). eexists. now apply calcConv_ok. }
  split; [exact Hiff|]. split.
  - intros Hp Hc. apply Hiff in Hc as [v Hv]. congruence.
  - intros Hn. apply panics; [apply no_exit_calcConv|].
    intros v Hv. apply Hn, Hiff. eauto.
Qed.

(** X1.  [correlate] on a matrix of at least 2x2 with a kernel of at least 3x3
    weights returns the matrix of [rows - 2] by [cols - 2] whose cell
    [(i, j)] is the sum [calcConv] computes at input cell [(i + 1, j + 1)],
    in which weight [f[a][b]] multiplies input [(i + b, j + a)]. *)
Theorem correlate_valid (im : Dense F) (f : list (list F)) :
  wf_dense im -> 2 <= Rows im -> 2 <= Cols im -> kernel3 f = true ->
  exists o,
    correlate im f = Ok o /\
    Dims o = (Rows im - 2, Cols im - 2) /\ wf_dense o /\
    forall i j, 0 <= i < Rows im - 2 -> 0 <= j < Cols im - 2 ->
      At o i j
      = Ok (fold_left (fun res ab =>
                fadd res (fmul (get im (i + snd ab) (j + fst ab))
                               (kget f (fst ab) (snd ab))))
              [(0, 0); (0, 1); (0, 2); (1, 0); (1, 1); (1, 2); (2, 0); (2, 1); (2, 2)]
              f0).
Proof.
  intros Hwf Hr Hc Hk.
  pose proof (correlate_ok im f Hwf Hk Hr Hc) as E.
  eexists. split; [exact E|]. split; [reflexivity|]. split.
  - unfold wf_dense. simpl. rewrite length_interior by lia. lia.
  - intros i j Hi Hj. rewrite (correlate_cell im _ f i j Hwf Hk E Hi Hj).
    unfold convAt. cbn [fold_left fst snd].
    replace (i + 1 - 1) with (i + 0) by lia.
    replace (i + 1 + 1) with (i + 2) by lia.
    replace (j + 1 - 1) with (j + 0) by lia.
    replace (j + 1 + 1) with (j + 2) by lia.
    reflexivity.
Qed.

(** X3.  The edges of [correlate]: with an interior cell and a kernel that lacks
    one of its nine weights it panics; on a matrix of two rows, or of two
    columns, it returns a matrix without elements and reads no weight; on a
    matrix with fewer than two rows and more than two columns (or the
    converse) it panics on the negative length of the new vector. *)
Theorem correlate_edges (im : Dense F) (f : list (list F)) :
  wf_dense im ->
  (3 <= Rows im -> 3 <= Cols im -> kernel3 f = false -> correlate im f = Panic) /\
  (2 <= Rows im -> 2 <= Cols im -> Rows im = 2 \/ Cols im = 2 ->
     correlate im f = Ok (mkDense (Rows im - 2) (Cols im - 2) [])) /\
  ((Rows im < 2 /\ 2 < Cols im) \/ (2 < Rows im /\ Cols im < 2) ->
     correlate im f = Panic).
Proof.
  intros Hwf. split; [|split].
  - intros Hr Hc Hk. unfold correlate, Dims.
    rewrite (for_cells_Panic _ _ _ 1 1); [reflexivity | | | |].
    + intros i j _ _. destruct (_ || _); [apply no_exit_Ok|].
      apply no_exit_bind; [apply no_exit_calcConv | intros; apply no_exit_Ok].
    + apply In_zrange. lia.
    + apply In_zrange. lia.
    + replace ((1 =? 0) || (1 =? 0) || (1 =? Rows im - 1) || (1 =? Cols im - 1))
        with false.
      2:{ symmetry. rewrite !orb_false_iff. repeat split; apply Z.eqb_neq; lia. }
      rewrite (panics (calcConv 1 1 im f)); [reflexivity | apply no_exit_calcConv |].
      intros v Hv. apply calcConv_Ok_inv in Hv as (_ & _ & Hk'). congruence.
  - intros Hr Hc H2. unfold correlate, Dims.
    rewrite (for_cells_ok _ _ _ (fun i j =>
      if (i =? 0) || (j =? 0) || (i =? Rows im - 1) || (j =? Cols im - 1)
      then [] else [convAt im f i j])).
    + rewrite interior_cells by assumption.
      assert (Hnil : flat_map (fun i => map (convAt im f i) (zrange 1 (Cols im - 1)))
                       (zrange 1 (Rows im - 1)) = []).
      { destruct H2 as [H2|H2].
        - now rewrite (zrange_empty 1 (Rows im - 1)) by lia.
        - rewrite (zrange_empty 1 (Cols im - 1)) by lia. apply flat_map_nil. }
      rewrite Hnil. simpl.
      assert (H0 : (Rows im - 2) * (Cols im - 2) = 0) by nia.
      rewrite fill_exact by (unfold len; simpl; lia). simpl.
      apply NewDense_exact. unfold len. simpl. lia.
    + intros i j Hi Hj. apply In_zrange in Hi, Hj.
      destruct (Z.eqb_spec i 0), (Z.eqb_spec j 0), (Z.eqb_spec i (Rows im - 1)),
        (Z.eqb_spec j (Cols im - 1)); simpl; try reflexivity.
      destruct H2; lia.
  - intros Hthin. destruct Hwf as (Hr0 & Hc0 & _).
    apply panics; [apply no_exit_correlate|].
    intros o H. apply correlate_dims in H as [_ Hl].
    pose proof (len_nonneg _ (Data o)). nia.
Qed.

End CorrelateEdges.

Lemma calcConv_returns_iff_witness :
  (exists v, calcConv 1 1 im3 topMiddle = Ok v) <->
  (1 <= 1 <= 3 - 2 /\ 1 <= 1 <= 3 - 2 /\ kernel3 topMiddle = true).
Proof.
  refine (proj1 (calcConv_returns_iff im3 topMiddle 1 1 _)).
  unfold wf_dense, len. simpl. lia.
Defined.

Lemma correlate_valid_witness :
  exists o, correlate im3 topMiddle = Ok o /\ Dims o = (1, 1).
Proof.
  destruct (correlate_valid im3 topMiddle) as (o & E & Hd & _).
  - unfold wf_dense, len. simpl. lia.
  - simpl. lia.
  - simpl. lia.
  - reflexivity.
  - exists o. split; [exact E | exact Hd].
Defined.

Lemma correlate_edges_witness :
  correlate im3 [[1; 2; 3]; [4; 5; 6]]%float = Panic.
Proof.
  refine (proj1 (correlate_edges im3 [[1; 2; 3]; [4; 5; 6]]%float _) _ _ _).
  - unfold wf_dense, len. simpl. lia.
  - simpl. lia.
  - simpl. lia.
  - reflexivity.
Defined.

(** ** What [pad] returns, and when *)

Lemma zrange_app (a b c : Z) : a <= b -> b <= c -> zrange a b ++ zrange b c = zrange a c.
Proof.
  intros Hab Hbc. remember (Z.to_nat (b - a)) as n eqn:Hn.
  revert a Hab Hn. induction n as [|n IH]; intros a Hab Hn.
  - assert (a = b) by lia. subst a. now rewrite (zrange_empty b b) by lia.
  - rewrite (zrange_cons a b), (zrange_cons a c) by lia. simpl. f_equal.
    apply IH; lia.
Qed.

Section PadCells.

Context {F : Type} {SF : Scalar F}.

(** The source cell that [pad] copies (divided by 255) into the cell
    [(i, j)] of its result, read off the three loops. *)
Definition padSource (im : Dense F) (padding i j : Z) : Z * Z :=
  let r := Rows im in
  let c := Cols im in
  if i <? padding then
    if j <? padding then (0, 0) else if j >=? c then (0, c - 1) else (padding, j)
  else if i <? r then
    if j <? padding then (i - padding, 0)
    else if j >=? c then (i - padding, c - 1) else (i, j)
  else
    if j <? padding then (r - 1, 0) else if j >=? c then (r - 1, c - 1) else (r - 1, j).

Definition padValue (im : Dense F) (padding i j : Z) : F :=
  fdiv (get im (fst (padSource im padding i j)) (snd (padSource im padding i j))) f255.

(** The condition under which [pad] returns. *)
Definition paddable (im : Dense F) (padding : Z) : Prop :=
  1 <= Rows im /\ 1 <= Cols im /\
  (padding < Rows im \/ (padding = Rows im /\ Cols im <= padding)).

Lemma pad_explicit (im : Dense F) (padding : Z) :
  wf_dense im -> 0 <= padding -> paddable im padding ->
  pad im padding
  = Ok (mkDense (Rows im + padding * 2) (Cols im + padding * 2)
          (flat_map (fun i => map (padValue im padding i)
                                  (zrange 0 (Cols im + padding * 2)))
                    (zrange 0 (Rows im + padding * 2)))).
Proof.
  intros Hwf Hp (Hr & Hc & Hpr). unfold pad, Dims.
  set (r := Rows im) in *. set (c := Cols im) in *.
  rewrite !At_get by (assumption || lia). simpl.
  rewrite (for_cells_ok _ _ _ (fun i j => [padValue im padding i j])).
  2:{ intros i j Hi Hj. apply In_zrange in Hi, Hj.
      unfold padValue, padSource. fold r c.
      replace (i <? padding) with true by (symmetry; apply Z.ltb_lt; lia).
      destruct (Z.ltb_spec j padding); [reflexivity|].
      destruct (Z.geb_spec j c); [reflexivity|].
      rewrite At_get by (assumption || lia). reflexivity. }
  simpl.
  rewrite (for_cells_ok _ _ _ (fun i j => [padValue im padding i j])).
  2:{ intros i j Hi Hj. apply In_zrange in Hi, Hj.
      unfold padValue, padSource. fold r c.
      replace (i <? padding) with false by (symmetry; apply Z.ltb_ge; lia).
      replace (i <? r) with true by (symmetry; apply Z.ltb_lt; lia).
      destruct (Z.ltb_spec j padding);
        [rewrite At_get by (assumption || lia); reflexivity|].
      destruct (Z.geb_spec j c);
        rewrite At_get by (assumption || lia); reflexivity. }
  simpl.
  rewrite (for_cells_ok _ _ _ (fun i j => [padValue im padding i j])).
  2:{ intros i j Hi Hj. apply In_zrange in Hi, Hj.
      unfold padValue, padSource. fold r c.
      replace (i <? padding) with false by (symmetry; apply Z.ltb_ge; lia).
      replace (i <? r) with false by (symmetry; apply Z.ltb_ge; lia).
      destruct (Z.ltb_spec j padding); [reflexivity|].
      destruct (Z.geb_spec j c); [reflexivity|].
      rewrite At_get by (assumption || lia). reflexivity. }
  simpl.
  rewrite <- !flat_map_app, !zrange_app by lia.
  assert (Hlen : len (flat_map (fun i => flat_map (fun j => [padValue im padding i j])
                                  (zrange 0 (c + padding * 2)))
                        (zrange 0 (r + padding * 2)))
                 = (r + padding * 2) * (c + padding * 2)).
  { rewrite len_cells by reflexivity. rewrite !len_zrange by lia. lia. }
  rewrite fill_exact by exact Hlen. simpl.
  rewrite NewDense_exact by (now rewrite Hlen).
  do 2 f_equal; try (apply flat_map_ext_in; intros i _; apply flat_map_single).
Qed.

Lemma pad_explicit_cell (im : Dense F) (padding : Z) :
  wf_dense im -> 0 <= padding -> paddable im padding ->
  let o := mkDense (Rows im + padding * 2) (Cols im + padding * 2)
             (flat_map (fun i => map (padValue im padding i)
                                     (zrange 0 (Cols im + padding * 2)))
                       (zrange 0 (Rows im + padding * 2))) in
  wf_dense o /\
  forall i j, 0 <= i < Rows im + padding * 2 -> 0 <= j < Cols im + padding * 2 ->
    At o i j = Ok (padValue im padding i j).
Proof.
  intros Hwf Hp (Hr & Hc & _).
  set (nr := Rows im + padding * 2) in *. set (nc := Cols im + padding * 2) in *.
  intros o.
  assert (Hrow : forall a, In a (zrange 0 nr) ->
            length (map (padValue im padding a) (zrange 0 nc)) = Z.to_nat nc).
  { intros a _. rewrite length_map, length_zrange. f_equal. lia. }
  assert (Hwo : wf_dense o).
  { unfold wf_dense, len, o. simpl.
    rewrite (length_flat_map_const _ _ _ Hrow), length_zrange. unfold nr, nc. nia. }
  split; [exact Hwo|].
  intros i j Hi Hj. rewrite At_get by (auto; simpl; lia). f_equal.
  unfold get, o. simpl. apply nth_error_nth.
  replace (Z.to_nat (i * nc + j))
    with (Z.to_nat i * Z.to_nat nc + Z.to_nat j)%nat by nia.
  rewrite (nth_error_flat_map_const _ _ _ _ _ Hrow) by lia.
  rewrite nth_error_zrange by lia.
  rewrite nth_error_map, nth_error_zrange by lia. cbn -[Z.add].
  do 2 f_equal; lia.
Qed.

(** X4.  Every cell of the padded matrix: [pad] returns a matrix of
    [rows + 2*padding] by [cols + 2*padding] whose cell [(i, j)] is the
    source cell [padSource] names, divided by 255.  The source is copied
    without an offset: cell [(i, j)] with [padding <= i < rows] and
    [padding <= j < cols] holds source cell [(i, j)]. *)
Theorem pad_cell (im : Dense F) (padding : Z) :
  wf_dense im -> 0 <= padding -> paddable im padding ->
  exists o,
    pad im padding = Ok o /\ wf_dense o /\
    Dims o = (Rows im + padding * 2, Cols im + padding * 2) /\
    (forall i j, 0 <= i < Rows im + padding * 2 -> 0 <= j < Cols im + padding * 2 ->
       At o i j = Ok (padValue im padding i j)) /\
    (forall i j, padding <= i < Rows im -> padding <= j < Cols im ->
       At o i j = Ok (fdiv (get im i j) f255)).
Proof.
  intros Hwf Hp Hpad.
  pose proof (pad_explicit im padding Hwf Hp Hpad) as E.
  destruct (pad_explicit_cell im padding Hwf Hp Hpad) as [Hwo Hcell].
  destruct Hpad as (Hr & Hc & _).
  eexists. split; [exact E|]. split; [exact Hwo|]. split; [reflexivity|].
  split; [exact Hcell|].
  intros i j Hi Hj. rewrite Hcell by lia.
  unfold padValue, padSource.
  replace (i <? padding) with false by (symmetry; apply Z.ltb_ge; lia).
  replace (i <? Rows im) with true by (symmetry; apply Z.ltb_lt; lia).
  replace (j <? padding) with false by (symmetry; apply Z.ltb_ge; lia).
  destruct (Z.geb_spec j (Cols im)); [lia | reflexivity].
Qed.

End PadCells.

Section PadEdges.

Context {F : Type} {SF : Scalar F}.

Lemma At_Panic (d : Dense F) (i j : Z) :
  ~ (0 <= i < Rows d /\ 0 <= j < Cols d) -> At d i j = Panic.
Proof.
  intros Hn. apply panics; [apply no_exit_At|].
  intros v Hv. apply Hn. eapply At_Ok_range, Hv.
Qed.

Lemma fill_Panic {A : Type} (zero : A) (n : Z) (cells : list A) :
  n < len cells -> fill zero n cells = Panic.
Proof.
  intros Hn. unfold fill. destruct (n <? 0); [reflexivity|].
  destruct (Z.leb_spec (len cells) n); [lia | reflexivity].
Qed.

Lemma pad_Panic (im : Dense F) (padding : Z) :
  wf_dense im -> 0 <= padding -> ~ paddable im padding -> pad im padding = Panic.
Proof.
  intros Hwf Hp Hn. unfold paddable in Hn. unfold pad, Dims.
  set (r := Rows im) in *. set (c := Cols im) in *.
  destruct (Z.ltb_spec r 1) as [Hr|Hr];
    [rewrite (At_Panic im 0 0) by (fold r; lia); reflexivity|].
  destruct (Z.ltb_spec c 1) as [Hc|Hc];
    [rewrite (At_Panic im 0 0) by (fold c; lia); reflexivity|].
  rewrite !At_get by (assumption || lia). simpl.
  destruct (Z.ltb_spec padding c) as [Hpc|Hpc].
  - (* the top loop reads im.At(padding, padding), below the last row *)
    rewrite (for_cells_Panic _ _ _ 0 padding); [reflexivity | | | |].
    + intros i j _ _.
      destruct (j <? padding); [apply no_exit_Ok|].
      destruct (j >=? c); [apply no_exit_Ok|].
      apply no_exit_bind; [apply no_exit_At | intros; apply no_exit_Ok].
    + apply In_zrange. lia.
    + apply In_zrange. lia.
    + rewrite Z.ltb_irrefl.
      destruct (Z.geb_spec padding c); [lia|].
      rewrite At_Panic by (fold r; lia). reflexivity.
  - (* the loops write 3 * padding rows into a vector of rows + 2 * padding *)
    rewrite (for_cells_ok _ _ _ (fun i j =>
      if j <? padding then [fdiv (get im 0 0) f255]
      else [fdiv (get im 0 (c - 1)) f255])).
    2:{ intros i j _ Hj. apply In_zrange in Hj.
        destruct (Z.ltb_spec j padding); [reflexivity|].
        destruct (Z.geb_spec j c); [reflexivity | lia]. }
    simpl. rewrite (zrange_empty padding r) by lia.
    change (for_cells [] ?cs ?b) with (@Ok (list F) []). simpl.
    rewrite (for_cells_ok _ _ _ (fun i j =>
      if j <? padding then [fdiv (get im (r - 1) 0) f255]
      else [fdiv (get im (r - 1) (c - 1)) f255])).
    2:{ intros i j _ Hj. apply In_zrange in Hj.
        destruct (Z.ltb_spec j padding); [reflexivity|].
        destruct (Z.geb_spec j c); [reflexivity | lia]. }
    simpl. rewrite fill_Panic; [reflexivity|].
    rewrite len_app.
    rewrite !len_cells by (intros i j _ _; destruct (j <? padding); reflexivity).
    rewrite !len_zrange by lia. nia.
Qed.

(** X5.  [pad] returns exactly on a matrix that has a cell and more rows than the
    padding, or as many rows as the padding and no more columns; otherwise
    it panics: on an empty matrix when it reads the corners, and with too
    few rows when it reads row [padding] or writes past the end of the new
    vector. *)
Theorem pad_returns_iff (im : Dense F) (padding : Z) :
  wf_dense im -> 0 <= padding ->
  ((exists o, pad im padding = Ok o) <-> paddable im padding) /\
  (pad im padding = Panic <-> ~ paddable im padding).
Proof.
  intros Hwf Hp.
  assert (Hiff : (exists o, pad im padding = Ok o) <-> paddable im padding).
  { split.
    - intros [o Ho]. destruct (Z.ltb_spec padding (Rows im)) as [Hlt|Hge].
      + apply pad_dims in Ho as (_ & _ & Hr & Hc). unfold paddable. lia.
      + assert (Hd : {paddable im padding} + {~ paddable im padding}).
        { unfold paddable.
          destruct (Z_le_dec 1 (Rows im)), (Z_le_dec 1 (Cols im)),
            (Z.eq_dec padding (Rows im)), (Z_le_dec (Cols im) padding);
            try (left; lia); right; lia. }
        destruct Hd as [Hd|Hd]; [exact Hd|].
        rewrite (pad_Panic im padding Hwf Hp Hd) in Ho. discriminate.
    - intros Hpad. eexists. now apply pad_explicit. }
  split; [exact Hiff|]. split.
  - intros E Hpad. apply Hiff in Hpad as [o Ho]. congruence.
  - now apply pad_Panic.
Qed.

(** X6.  Where [pad] does replicate the edge: in the rows above the source's
    last row or below the last [padding] rows, the columns left of the
    padding and right of the source hold the nearest source value. *)
Theorem pad_replicates_outer_columns (im : Dense F) (padding : Z) :
  wf_dense im -> 0 <= padding -> paddable im padding ->
  exists o,
    pad im padding = Ok o /\
    forall i j,
      0 <= i < Rows im + padding * 2 -> 0 <= j < Cols im + padding * 2 ->
      i < Rows im \/ Rows im + padding <= i ->
      j < padding \/ Cols im + padding <= j ->
      At o i j = Ok (edgeReplicate im padding i j).
Proof.
  intros Hwf Hp Hpad.
  pose proof (pad_explicit im padding Hwf Hp Hpad) as E.
  destruct (pad_explicit_cell im padding Hwf Hp Hpad) as [_ Hcell].
  eexists. split; [exact E|].
  intros i j Hi Hj Hrow Hcol. rewrite Hcell by assumption. f_equal.
  destruct Hpad as (Hr & Hc & Hpr).
  unfold padValue, padSource, edgeReplicate, clamp.
  destruct (Z.ltb_spec i padding), (Z.ltb_spec i (Rows im)),
    (Z.ltb_spec j padding), (Z.geb_spec j (Cols im)); simpl;
    try lia; do 2 f_equal; lia.
Qed.

Lemma padValue_zero (im : Dense F) :
  wf_dense im ->
  flat_map (fun i => map (padValue im 0 i) (zrange 0 (Cols im))) (zrange 0 (Rows im))
  = map (fun v => fdiv v f255) (Data im).
Proof.
  intros Hwf.
  rewrite <- (row_major _ (fun v => fdiv v f255) im Hwf).
  apply flat_map_ext_in. intros i Hi. apply In_zrange in Hi.
  rewrite flat_map_single. apply map_ext_in. intros j Hj. apply In_zrange in Hj.
  unfold padValue, padSource.
  destruct (Z.ltb_spec i 0), (Z.ltb_spec i (Rows im)), (Z.ltb_spec j 0),
    (Z.geb_spec j (Cols im)); simpl; try lia. reflexivity.
Qed.

(** X7.  With no padding, [pad] is the division of every element by 255. *)
Theorem pad_zero_normalises (im : Dense F) :
  wf_dense im -> 1 <= Rows im -> 1 <= Cols im ->
  pad im 0 = Ok (mkDense (Rows im) (Cols im) (map (fun v => fdiv v f255) (Data im))).
Proof.
  intros Hwf Hr Hc.
  rewrite pad_explicit; [|assumption|lia|unfold paddable; lia].
  replace (Rows im + 0 * 2) with (Rows im) by lia.
  replace (Cols im + 0 * 2) with (Cols im) by lia.
  do 2 f_equal. now apply padValue_zero.
Qed.

End PadEdges.

Lemma im3_wf : wf_dense im3.
Proof. unfold wf_dense, len. simpl. lia. Qed.

Lemma im3_paddable : paddable im3 1.
Proof. unfold paddable. simpl. lia. Qed.

Lemma pad_cell_witness :
  exists o, pad im3 1 = Ok o /\ At o 1 1 = Ok (fdiv (get im3 1 1) 255%float).
Proof.
  destruct (pad_cell im3 1 im3_wf ltac:(lia) im3_paddable) as (o & E & _ & _ & _ & H).
  exists o. split; [exact E|]. apply H; simpl; lia.
Defined.

Lemma pad_returns_iff_witness :
  (exists o, pad im3 1 = Ok o) <-> paddable im3 1.
Proof.
  exact (proj1 (pad_returns_iff im3 1 im3_wf ltac:(lia))).
Defined.

Lemma pad_replicates_outer_columns_witness :
  exists o, pad im3 1 = Ok o /\ At o 2 4 = Ok (edgeReplicate im3 1 2 4).
Proof.
  destruct (pad_replicates_outer_columns im3 1 im3_wf ltac:(lia) im3_paddable)
    as (o & E & H).
  exists o. split; [exact E|]. apply H; simpl; lia.
Defined.

Lemma pad_zero_normalises_witness :
  pad im3 0 = Ok (mkDense 3 3 (map (fun v => fdiv v 255%float) (Data im3))).
Proof.
  exact (pad_zero_normalises im3 im3_wf ltac:(simpl; lia) ltac:(simpl; lia)).
Defined.

(** ** Element-wise operations *)

Section Elementwise.

Context {F : Type} {SF : Scalar F}.

Lemma get_map (d : Dense F) (h : F -> F) (i j : Z) :
  wf_dense d -> 0 <= i < Rows d -> 0 <= j < Cols d ->
  get (mkDense (Rows d) (Cols d) (map h (Data d))) i j = h (get d i j).
Proof.
  intros (Hr & Hc & Hl) Hi Hj. unfold get. simpl.
  apply nth_error_nth. rewrite nth_error_map.
  rewrite (nth_error_nth' _ f0); [reflexivity|]. unfold len in Hl. nia.
Qed.

(** X8.  [broadcastMat] leaves its argument alone and returns a matrix of the
    same shape whose cell [(i, j)] is [f(mat(i, j), n)]; [clip] returns the
    [rows * cols] elements in row-major order, each replaced by [start]
    when below it, by [end] when above it, and kept otherwise;
    [broadcastVec] after [clip] keeps the length. *)
Theorem broadcast_and_clip_elementwise (mat : Dense F) (n start end_ : F)
  (f : F -> F -> F) :
  wf_dense mat ->
  (exists o, broadcastMat mat n f = Ok o /\ wf_dense o /\ Dims o = Dims mat /\
     forall i j, 0 <= i < Rows mat -> 0 <= j < Cols mat ->
       At o i j = Ok (f (get mat i j) n)) /\
  (exists vec, clip mat start end_ = Ok vec /\
     len vec = Rows mat * Cols mat /\
     len (broadcastVec vec n f) = Rows mat * Cols mat /\
     forall i j, 0 <= i < Rows mat -> 0 <= j < Cols mat ->
       let e := get mat i j in
       index vec (i * Cols mat + j)
       = Ok (if flt e start then start else if flt end_ e then end_ else e)).
Proof.
  intros Hwf. split.
  - eexists. split; [now apply broadcastMat_ok|].
    split; [apply (wf_map mat), Hwf|]. split; [reflexivity|].
    intros i j Hi Hj.
    rewrite At_get by (try apply (wf_map mat); auto).
    f_equal. now apply (get_map mat (fun v => f v n)).
  - eexists. split; [now apply clip_ok|].
    pose proof Hwf as (Hr & Hc & Hl).
    assert (Hlen : len (map (clip1 start end_) (Data mat)) = Rows mat * Cols mat)
      by (unfold len in *; now rewrite length_map).
    split; [exact Hlen|].
    split; [unfold broadcastVec, len in *; now rewrite length_map|].
    intros i j Hi Hj e.
    rewrite (index_nth _ _ f0) by (rewrite Hlen; nia). f_equal.
    apply (get_map mat (clip1 start end_) i j Hwf Hi Hj).
Qed.

End Elementwise.

Lemma broadcast_and_clip_elementwise_witness :
  exists o, broadcastMat im3 1%float add = Ok o /\ At o 2 1 = Ok (add (get im3 2 1) 1%float).
Proof.
  destruct (proj1 (broadcast_and_clip_elementwise im3 1%float 0%float 1%float add im3_wf))
    as (o & E & _ & _ & H).
  exists o. split; [exact E|]. apply H; simpl; lia.
Defined.

(** ** The engine without layers, and the ways it stops *)

Section EngineEdges.

Context {F : Type} {SF : Scalar F}.

(** X9.  With an empty network the engine returns its input divided by 255,
    clipped to [0, 1] and multiplied by 255, element by element. *)
Theorem engine_no_layers (sched : Sched) (m : Dense F) :
  wf_dense m -> 1 <= Rows m -> 1 <= Cols m ->
  engine sched [] m
  = Ok (map (fun x => mul (clip1 f0 f1 (fdiv x f255)) f255) (Data m)).
Proof.
  intros Hwf Hr Hc. unfold engine.
  change (len (@nil (Model F))) with 0.
  rewrite pad_explicit; [|assumption|lia|unfold paddable; lia].
  replace (Rows m + 0 * 2) with (Rows m) by lia.
  replace (Cols m + 0 * 2) with (Cols m) by lia.
  rewrite padValue_zero by assumption. simpl.
  unfold index. simpl.
  rewrite clip_ok by (apply (wf_map m), Hwf). simpl.
  unfold broadcastVec. now rewrite !map_map.
Qed.

Lemma bind_Exit {A B : Type} (m : outcome A) (k : A -> outcome B) (code : Z) :
  bind m k = Exit code -> m = Exit code \/ exists a, m = Ok a /\ k a = Exit code.
Proof.
  destruct m as [a| |c]; simpl; intros H; [right; eauto | discriminate |].
  left. injection H as ->. reflexivity.
Qed.

(** X10.  The engine leaves the process only through its assertion: an exit has
    code 1 and happens after [pad] and all layers have returned, with a
    number of planes other than one. *)
Theorem engine_exit_only_from_assert (sched : Sched) (models : list (Model F))
  (m : Dense F) (code : Z) :
  engine sched models m = Exit code ->
  code = 1 /\
  exists padded planes progress,
    pad m (len models) = Ok padded /\
    layers sched 0 models [padded] 0 = Ok (planes, progress) /\
    len planes <> 1.
Proof.
  unfold engine. intros H.
  apply bind_Exit in H as [H|(padded & Ep & H)]; [now destruct (no_exit_pad _ _ _ H)|].
  apply bind_Exit in H as [H|([planes progress] & El & H)];
    [now destruct (no_exit_layers _ _ _ _ _ _ H)|].
  destruct (Z.eqb_spec (len planes) 1) as [H1|H1]; simpl in H.
  - apply bind_Exit in H as [H|(p0 & _ & H)]; [now destruct (no_exit_index _ _ _ H)|].
    apply bind_Exit in H as [H|(v & _ & H)]; [now destruct (no_exit_clip _ _ _ _ H)|].
    discriminate.
  - injection H as <-. split; [reflexivity|]. eauto 6.
Qed.

Lemma outputPlanes_each_Ok (sched : Sched) (l : Z) (m : Model F)
  (planes : list (Dense F)) :
  forall iter oPlanes progress out progress',
    outputPlanes sched l m planes oPlanes progress iter = Ok (out, progress') ->
    forall i, In i iter ->
      exists progress_i r, outputPlane sched l m planes progress_i i = Ok r.
Proof.
  induction iter as [|i0 iter IH]; intros oPlanes progress out progress' H i Hi;
    simpl in *; [contradiction|].
  split_bind H as st Eo. destruct st as [o prog].
  destruct Hi as [<-|Hi]; [eauto | eapply IH; eassumption].
Qed.

(** X11.  A layer panics when one of its output planes has no input to sum:
    an empty group of weights, or no plane left by the layer before.  The
    partial sum is then still nil when [broadcastMat] reads it. *)
Theorem layer_without_input_panics (sched : Sched) (l : Z) (m : Model F)
  (planes : list (Dense F)) (progress i : Z) :
  sched_ok sched ->
  0 <= i < Z.min (len (Bias m)) (len (Weight m)) ->
  inputCount planes m i = 0 ->
  layer sched l m planes progress = Panic.
Proof.
  intros Hs Hi H0.
  assert (Hno : forall progress_i r,
            outputPlane sched l m planes progress_i i <> Ok r).
  { intros progress_i r H. unfold outputPlane in H.
    split_bind H as b Eb. split_bind H as wgt Ew.
    assert (Hfj : Z.min (len planes) (len wgt) = 0).
    { unfold inputCount in H0. apply index_Ok in Ew as [_ Ew].
      now rewrite (nth_error_nth _ _ [] Ew) in H0. }
    rewrite Hfj in H.
    pose proof (Hs l i 0) as Hp. rewrite (zrange_empty 0 0) in Hp by lia.
    apply Permutation_sym, Permutation_nil in Hp. rewrite Hp in H.
    unfold convolutions in H. rewrite Hfj, (zrange_empty 0 0) in H by lia.
    simpl in H. discriminate. }
  apply panics; [apply no_exit_layer|].
  intros [planes' progress'] H. unfold layer in H.
  split_bind H as st Eo. destruct st as [oPlanes prog].
  destruct (outputPlanes_each_Ok _ _ _ _ _ _ _ _ _ Eo i) as (pi & r & Hr).
  - apply In_zrange. exact Hi.
  - exact (Hno pi r Hr).
Qed.

End EngineEdges.

(* a layer whose only group of weights is empty *)
Definition hollow : Model float := mkModel [[]] 1 3 3 [0]%float 1.

Lemma engine_no_layers_witness :
  engine in_order [] im3
  = Ok (map (fun x => mul (clip1 0 1 (x / 255)) 255)%float (Data im3)).
Proof.
  exact (engine_no_layers in_order im3 im3_wf ltac:(simpl; lia) ltac:(simpl; lia)).
Defined.

Lemma engine_exit_only_from_assert_witness :
  exists padded planes progress,
    pad white3 (len net1) = Ok padded /\
    layers in_order 0 net1 [padded] 0 = Ok (planes, progress) /\
    len planes <> 1.
Proof.
  refine (proj2 (engine_exit_only_from_assert in_order net1 white3 1 _)).
  vm_compute. reflexivity.
Defined.

Lemma layer_without_input_panics_witness :
  layer in_order 0 hollow [im3] 0 = Panic.
Proof.
  apply (layer_without_input_panics in_order 0 hollow [im3] 0 0 in_order_ok).
  - unfold len. simpl. lia.
  - reflexivity.
Defined.

(** ** The progress counter *)

Section Progress.

Context {F : Type} {SF : Scalar F}.

(** [count]: the total [Exec] divides the progress by,
    [count += float64(v.NInputPlane * v.NOutputPlane)]; the sums are small
    integers, kept in [Z]. *)
Definition count (models : list (Model F)) : Z :=
  fold_left (fun acc v => acc + NInputPlane v * NOutputPlane v) models 0.

(** A layer whose declared plane counts are the lengths of its data, for
    [nin] input planes; a network in which they chain. *)
Definition declared (nin : Z) (m : Model F) : bool :=
  (NInputPlane m =? nin) && (NOutputPlane m =? len (Bias m)) &&
  (len (Weight m) =? len (Bias m)) &&
  forallb (fun wgt => len wgt =? nin) (Weight m).

Fixpoint consistent (nin : Z) (models : list (Model F)) : bool :=
  match models with
  | [] => true
  | m :: models' => declared nin m && consistent (NOutputPlane m) models'
  end.

Lemma sum_const (A : Type) (g : A -> Z) (k : Z) (l : list A) :
  (forall a, In a l -> g a = k) -> fold_right Z.add 0 (map g l) = len l * k.
Proof.
  induction l as [|a l IH]; intros Hg; [reflexivity|].
  cbn [map fold_right].
  rewrite (Hg a (or_introl eq_refl)), IH by (intros; apply Hg; now right).
  unfold len. cbn [length]. lia.
Qed.

Lemma count_from (models : list (Model F)) (a : Z) :
  fold_left (fun acc v => acc + NInputPlane v * NOutputPlane v) models a
  = a + count models.
Proof.
  unfold count. revert a. induction models as [|m models IH]; intros a; simpl; [lia|].
  rewrite IH, (IH (NInputPlane m * NOutputPlane m)). lia.
Qed.

Lemma layer_progress (sched : Sched) (l : Z) (m : Model F)
  (planes planes' : list (Dense F)) (progress progress' r c : Z) :
  sched_ok sched -> 2 <= r -> 2 <= c -> good r c planes ->
  declared (len planes) m = true ->
  layer sched l m planes progress = Ok (planes', progress') ->
  progress' = progress + NInputPlane m * NOutputPlane m /\
  len planes' = NOutputPlane m.
Proof.
  intros Hs Hr Hc Hg Hd El. unfold declared in Hd.
  rewrite !andb_true_iff in Hd. destruct Hd as (((Hi & Ho) & Hw) & Hall).
  apply Z.eqb_eq in Hi, Ho, Hw. rewrite forallb_forall in Hall.
  destruct (layer_inv _ _ _ _ _ _ _ _ _ Hr Hc Hg El) as (_ & Hlen & Hprog & _).
  rewrite Hw, Z.min_id in Hlen, Hprog.
  split; [|congruence].
  rewrite Hprog, (received_in_order sched l planes m _ Hs). f_equal.
  rewrite (sum_const _ _ (len planes)).
  - rewrite len_zrange by apply len_nonneg. lia.
  - intros i Hin. apply In_zrange in Hin. unfold inputCount.
    assert (Hnth : In (nth (Z.to_nat i) (Weight m) []) (Weight m))
      by (apply nth_In; unfold len in *; lia).
    apply Hall, Z.eqb_eq in Hnth. lia.
Qed.

Lemma layers_progress (sched : Sched) (models : list (Model F)) :
  sched_ok sched ->
  forall l planes progress planes' progress' r c,
    2 * len models <= r -> 2 * len models <= c -> good r c planes ->
    consistent (len planes) models = true ->
    layers sched l models planes progress = Ok (planes', progress') ->
    progress' = progress + count models.
Proof.
  intros Hs. induction models as [|m models IH];
    intros l planes progress planes' progress' r c Hr Hc Hg Hcons H; simpl in H.
  - injection H as <- <-. unfold count. simpl. lia.
  - assert (Hl : len (m :: models) = len models + 1) by (unfold len; simpl length; lia).
    rewrite Hl in *. pose proof (len_nonneg _ models) as H0.
    simpl in Hcons. apply andb_true_iff in Hcons as [Hd Hcons].
    split_bind H as st El. destruct st as [planes1 progress1].
    pose proof El as El'.
    apply layer_progress with (r := r) (c := c) in El'; auto; try lia.
    destruct El' as [-> Hl1].
    apply layer_inv with (r := r) (c := c) in El; auto; try lia.
    destruct El as (Hg1 & _).
    rewrite <- Hl1 in Hcons.
    apply IH with (r := r - 2) (c := c - 2) in H; auto; try lia.
    rewrite H. unfold count at 2. simpl. rewrite count_from. lia.
Qed.

(** X12.  On a network whose declared plane counts are the lengths of its biases
    and weights, layer after layer from one input plane, the progress
    counter ends at [count]: the last percentage printed is 100. *)
Theorem progress_reaches_count (sched : Sched) (models : list (Model F))
  (m padded : Dense F) (planes : list (Dense F)) (progress : Z) :
  sched_ok sched -> consistent 1 models = true ->
  pad m (len models) = Ok padded ->
  layers sched 0 models [padded] 0 = Ok (planes, progress) ->
  progress = count models.
Proof.
  intros Hs Hcons Ep El.
  pose proof (padded_good _ _ _ (len_nonneg _ models) Ep) as Hg.
  destruct (pad_dims _ _ _ Ep) as (_ & _ & Hr & Hc).
  pose proof (len_nonneg _ models) as H0.
  apply (layers_progress sched models Hs 0 [padded] 0 planes progress
           (Rows m + len models * 2) (Cols m + len models * 2)) in El;
    [lia | lia | lia | exact Hg | exact Hcons].
Qed.

End Progress.

Lemma progress_reaches_count_witness :
  exists padded planes,
    pad white3 (len net2) = Ok padded /\
    layers in_order 0 net2 [padded] 0 = Ok (planes, count net2).
Proof.
  destruct (pad white3 (len net2)) as [padded| |] eqn:Ep; try (vm_compute in Ep; discriminate).
  destruct (layers in_order 0 net2 [padded] 0) as [[planes progress]| |] eqn:El.
  - exists padded, planes. split; [reflexivity|].
    rewrite El. do 2 f_equal.
    exact (progress_reaches_count in_order net2 white3 padded planes progress
             in_order_ok eq_refl Ep El).
  - exfalso. revert El. vm_compute in Ep. injection Ep as <-. vm_compute. discriminate.
  - exfalso. revert El. vm_compute in Ep. injection Ep as <-. vm_compute. discriminate.
Defined.

(** ** [convertYCbCr], [extY] and [Exec] on whole images *)

Section ExecEdges.

Context {F : Type} {SF : Scalar F} {IL : ImageLib}.

Lemma luminance_wf (img : Image) (c : list YCbCr) :
  0 <= MaxX img -> 0 <= MaxY img -> convertYCbCr img = Ok c ->
  wf_dense (luminance img c).
Proof.
  intros Hx Hy Hc. apply convertYCbCr_len in Hc.
  unfold wf_dense, luminance, extY, len in *. simpl. rewrite length_map. lia.
Qed.

(** X13.  [convertYCbCr] returns [height * width] pixels, the pixel [(x, y)] of
    the image at index [y*width + x], converted from the low bytes of its
    red, green and blue; the matrix [Exec] builds with [extY] holds at row
    [y] and column [x] the luminance of that pixel. *)
Theorem luminance_cell (img : Image) :
  0 <= MaxX img -> 0 <= MaxY img ->
  exists c,
    convertYCbCr img = Ok c /\ len c = MaxY img * MaxX img /\
    NewDense (MaxY img) (MaxX img) (extY c) = Ok (luminance img c) /\
    forall x y, 0 <= x < MaxX img -> 0 <= y < MaxY img ->
      let '(r, g, b, _) := colorAt img x y in
      let '(Y0, Cb0, Cr0) := RGBToYCbCr (r mod 256) (g mod 256) (b mod 256) in
      index c (y * MaxX img + x) = Ok (mkYCbCr Y0 Cb0 Cr0) /\
      At (luminance img c) y x = Ok (of_uint8 Y0).
Proof.
  intros Hx Hy.
  pose proof (convertYCbCr_ok img Hx Hy) as Hc.
  match type of Hc with _ = Ok ?v => set (c := v) in * end.
  exists c. split; [exact Hc|].
  split; [now apply convertYCbCr_len|].
  split; [now apply luminance_ok|].
  intros x y Hx' Hy'.
  pose proof (convertYCbCr_pixel img c x y Hc Hx' Hy') as Hpx.
  pose proof (luminance_wf img c Hx Hy Hc) as Hwf.
  assert (Hat : At (luminance img c) y x = Ok (of_uint8 (Y (ycbcrAt img x y)))).
  { rewrite (At_get _ y x Hwf) by (simpl; lia). f_equal.
    unfold get, luminance, extY. simpl. apply nth_error_nth.
    rewrite nth_error_map, Hpx. reflexivity. }
  assert (Hidx : index c (y * MaxX img + x) = Ok (ycbcrAt img x y)).
  { apply index_Ok. split; [nia | exact Hpx]. }
  clearbody c.
  revert Hat Hidx. unfold ycbcrAt, uint8.
  destruct (colorAt img x y) as [[[r g] b] a].
  destruct (RGBToYCbCr (r mod 256) (g mod 256) (b mod 256)) as [[Y0 Cb0] Cr0].
  simpl. auto.
Qed.

(** X14.  [Exec] returns on every image wider than nothing and taller than the
    network is deep, when the layers are well formed and the last one has
    one output plane: the network and the source are untouched and [w.dst]
    has the bounds of the source and one pixel per source pixel. *)
Theorem Exec_returns (sched : Sched) (w : Waifu2x F) :
  sched_ok sched -> forallb wf_model (models w) = true -> finalCount (models w) = 1 ->
  1 <= MaxX (src w) -> len (models w) < MaxY (src w) ->
  exists pix,
    Exec sched w
    = Ok (mkWaifu2x (models w) (src w) (Some (MaxX (src w), MaxY (src w), pix))) /\
    len pix = MaxY (src w) * MaxX (src w).
Proof.
  intros Hs Hm Hf Hx Hy.
  pose proof (len_nonneg _ (models w)) as H0.
  pose proof (convertYCbCr_ok (src w) ltac:(lia) ltac:(lia)) as Hc.
  pose proof (luminance_wf (src w) _ ltac:(lia) ltac:(lia) Hc) as Hwf.
  destruct (engine_ok sched (models w) (luminance (src w) _) Hs Hm Hf Hwf Hx Hy)
    as (vec & He & Hl).
  destruct (Exec_after_engine sched w _ vec Hc He) as (Hlv & _ & E).
  eexists. split; [exact E|].
  apply convertYCbCr_len in Hc.
  unfold len in *. rewrite !length_map, length_combine. lia.
Qed.

(** X15.  [Exec] panics, whatever the weights, on an image without pixels, on an
    image with fewer rows than the network has layers, and on an image with
    as many rows as layers and more columns: [pad] does not return. *)
Theorem Exec_small_image_panics (sched : Sched) (w : Waifu2x F) :
  0 <= MaxX (src w) -> 0 <= MaxY (src w) ->
  ~ (1 <= MaxY (src w) /\ 1 <= MaxX (src w) /\
     (len (models w) < MaxY (src w) \/
      (len (models w) = MaxY (src w) /\ MaxX (src w) <= len (models w)))) ->
  Exec sched w = Panic.
Proof.
  intros Hx Hy Hn.
  pose proof (convertYCbCr_ok (src w) Hx Hy) as Hc.
  pose proof (luminance_wf (src w) _ Hx Hy Hc) as Hwf.
  unfold Exec, merged. rewrite Hc. simpl.
  rewrite (luminance_ok _ _ Hc). simpl.
  unfold engine. rewrite pad_Panic; [reflexivity | exact Hwf | apply len_nonneg |].
  unfold paddable. simpl. exact Hn.
Qed.

End ExecEdges.

(* a one-pixel-high image of eight columns *)
Definition strip : Image := mkImage 8 1 (fun _ _ => (65535, 65535, 65535, 65535)).

Lemma luminance_cell_witness :
  exists c, convertYCbCr white = Ok c /\ len c = 3 * 3.
Proof.
  destruct (luminance_cell (F := float) white ltac:(simpl; lia) ltac:(simpl; lia))
    as (c & Hc & Hl & _).
  exists c. split; [exact Hc | exact Hl].
Defined.

Lemma Exec_returns_witness :
  exists pix, Exec in_order w2 = Ok (mkWaifu2x net2 white (Some (3, 3, pix))).
Proof.
  destruct (Exec_returns in_order w2 in_order_ok eq_refl eq_refl)
    as (pix & E & _).
  - simpl. lia.
  - unfold len. simpl. lia.
  - exists pix. exact E.
Defined.

Lemma Exec_small_image_panics_witness :
  Exec in_order (mkWaifu2x net2 strip None) = Panic.
Proof.
  apply (Exec_small_image_panics in_order (mkWaifu2x net2 strip None)).
  - simpl. lia.
  - simpl. lia.
  - unfold len. simpl. lia.
Defined.

(** ** [SaveImage] and the files *)



(** ** What the engine never reads *)

Lemma mapM_ext_in {A B : Type} (f g : A -> outcome B) (l : list A) :
  (forall a, In a l -> f a = g a) -> mapM f l = mapM g l.
Proof.
  induction l as [|a l IH]; intros H; simpl; [reflexivity|].
  rewrite (H a (or_introl eq_refl)), IH; [reflexivity|].
  intros; apply H; now right.
Qed.

Lemma nth_error_firstn_lt {A : Type} (n i : nat) (l : list A) :
  (i < n)%nat -> nth_error (firstn n l) i = nth_error l i.
Proof.
  revert i l. induction n as [|n IH]; intros i l Hi; [lia|].
  destruct l as [|a l]; [reflexivity|]. destruct i as [|i]; [reflexivity|].
  simpl. apply IH. lia.
Qed.

Lemma index_firstn {A : Type} (n : nat) (i : Z) (s : list A) :
  i < Z.of_nat n -> index (firstn n s) i = index s i.
Proof.
  intros Hi. unfold index. destruct (Z.ltb_spec i 0); [reflexivity|].
  rewrite nth_error_firstn_lt by lia. reflexivity.
Qed.

Lemma index_map {A B : Type} (g : A -> B) (s : list A) (i : Z) :
  index (map g s) i = do v <- index s i; Ok (g v).
Proof.
  unfold index. destruct (i <? 0); [reflexivity|].
  rewrite nth_error_map. destruct (nth_error s (Z.to_nat i)); reflexivity.
Qed.

Section Unread.

Context {F : Type} {SF : Scalar F}.

(** The top-left 3x3 block of a kernel, and a layer reduced to what the
    loops read: its biases and these blocks. *)
Definition crop (f : list (list F)) : list (list F) :=
  map (firstn 3) (firstn 3 f).

Definition essential (m : Model F) : Model F :=
  mkModel (map (map crop) (Weight m)) 0 0 0 (Bias m) 0.

Lemma kat_crop (f : list (list F)) (a b : Z) :
  a < 3 -> b < 3 -> kat (crop f) a b = kat f a b.
Proof.
  intros Ha Hb. unfold kat, crop.
  rewrite index_map, (index_firstn 3 a f) by (simpl; lia).
  destruct (index f a) as [row| |]; simpl; try reflexivity.
  apply (index_firstn 3 b row). simpl. lia.
Qed.

Lemma acc_crop (im : Dense F) (f : list (list F)) (res : F) (i j a b : Z) :
  a < 3 -> b < 3 -> acc im (crop f) res i j a b = acc im f res i j a b.
Proof. intros Ha Hb. unfold acc. now rewrite kat_crop. Qed.

Lemma calcConv_crop (x y : Z) (im : Dense F) (f : list (list F)) :
  calcConv x y im (crop f) = calcConv x y im f.
Proof.
  unfold calcConv.
  repeat (rewrite acc_crop by lia;
          match goal with
          | |- bind ?o _ = bind ?o _ => destruct o as [?res| |]; simpl; try reflexivity
          end).
Qed.

Lemma correlate_crop (im : Dense F) (f : list (list F)) :
  correlate im (crop f) = correlate im f.
Proof.
  unfold correlate, for_cells. destruct (Dims im) as [r c].
  f_equal. f_equal. apply mapM_ext_in. intros i _.
  f_equal. apply mapM_ext_in. intros j _.
  now rewrite calcConv_crop.
Qed.

Lemma convolutions_crop (planes : list (Dense F)) (wgt : list (list (list F))) :
  convolutions planes (map crop wgt) = convolutions planes wgt.
Proof.
  unfold convolutions.
  replace (len (map crop wgt)) with (len wgt) by (unfold len; now rewrite length_map).
  apply mapM_ext_in. intros j _.
  destruct (index planes j) as [plane| |]; simpl; try reflexivity.
  rewrite index_map.
  destruct (index wgt j) as [kernel| |]; simpl; try reflexivity.
  apply correlate_crop.
Qed.

Lemma outputPlane_essential (sched : Sched) (l : Z) (m : Model F)
  (planes : list (Dense F)) (progress i : Z) :
  outputPlane sched l (essential m) planes progress i
  = outputPlane sched l m planes progress i.
Proof.
  unfold outputPlane, essential. simpl.
  destruct (index (Bias m) i) as [b| |]; simpl; try reflexivity.
  rewrite index_map.
  destruct (index (Weight m) i) as [wgt| |]; simpl; try reflexivity.
  rewrite convolutions_crop.
  replace (len (map crop wgt)) with (len wgt) by (unfold len; now rewrite length_map).
  reflexivity.
Qed.

Lemma outputPlanes_essential (sched : Sched) (l : Z) (m : Model F)
  (planes : list (Dense F)) (iter : list Z) :
  forall oPlanes progress,
    outputPlanes sched l (essential m) planes oPlanes progress iter
    = outputPlanes sched l m planes oPlanes progress iter.
Proof.
  induction iter as [|i iter IH]; intros oPlanes progress; simpl; [reflexivity|].
  rewrite outputPlane_essential.
  destruct (outputPlane sched l m planes progress i) as [[o prog]| |]; simpl; auto.
Qed.

Lemma layers_essential (sched : Sched) (models : list (Model F)) :
  forall l planes progress,
    layers sched l (map essential models) planes progress
    = layers sched l models planes progress.
Proof.
  induction models as [|m models IH]; intros l planes progress; simpl; [reflexivity|].
  unfold layer. rewrite outputPlanes_essential.
  replace (len (Weight (essential m))) with (len (Weight m))
    by (unfold essential, len; simpl; now rewrite length_map).
  change (Bias (essential m)) with (Bias m).
  destruct (outputPlanes sched l m planes [] progress _) as [[oPlanes prog]| |];
    simpl; try reflexivity.
  destruct (mapM leakyReLU oPlanes); simpl; auto.
Qed.

(** X17.  [correlate] reads the nine weights [f[0..2][0..2]] and nothing else of
    the kernel, and the engine reads of a layer its biases and these
    weights only: the declared [nInputPlane], [nOutputPlane], [kW] and
    [kH] and any weight outside the top-left 3x3 block of a kernel never
    change its outcome. *)
Theorem engine_reads_bias_and_3x3_only (sched : Sched) (models : list (Model F))
  (m : Dense F) (im : Dense F) (f : list (list F)) :
  correlate im (crop f) = correlate im f /\
  engine sched (map essential models) m = engine sched models m.
Proof.
  split; [apply correlate_crop|].
  unfold engine.
  replace (len (map essential models)) with (len models)
    by (unfold len; now rewrite length_map).
  destruct (pad m (len models)); simpl; try reflexivity.
  now rewrite layers_essential.
Qed.

End Unread.
